(** * valuecell: the in-memory task manager

    A shallow embedding of [python/valuecell/core/task/manager.py]
    (class [TaskManager]) and the properties of its task lifecycle.

    The manager owns one dictionary [_tasks : Dict[str, Task]].  It is
    modelled as a finite map from task ids to task records; every method
    becomes a function from the map before the call to the returned value
    and the map after it.  [datetime.now()] is modelled by the clock
    readings handed to the call: one reading [now : Z] for a single-task
    method, a reading per cancellation [now : nat → Z] for the batch.  The
    lock [self._lock] plays no part in a single call; it is modelled with
    the concurrent callers, further down. *)

From stdpp Require Import gmap strings list fin_maps.

Open Scope Z_scope.
Open Scope string_scope.

(** ** The task entity ([.models]) *)

(** Modelled from the spec: the enumeration [TaskStatus] of [models.py],
    which is imported by the manager but is not part of the sources at hand.
    The spec lists its values as PENDING, RUNNING, COMPLETED, FAILED and
    CANCELLED. *)
Inductive TaskStatus : Type :=
  | PENDING
  | RUNNING
  | COMPLETED
  | FAILED
  | CANCELLED.

#[global] Instance TaskStatus_eq_dec : EqDecision TaskStatus.
Proof. solve_decision. Defined.

(** Modelled from the spec: the fields of the class [Task] of [models.py]
    that the manager reads or writes ([task_id], [conversation_id],
    [status], [updated_at]) and the message that [fail] attaches. *)
Record Task : Type := mkTask {
  task_id : string;
  conversation_id : string;
  status : TaskStatus;
  updated_at : Z;
  error_message : option string
}.

#[global] Instance Task_eq_dec : EqDecision Task.
Proof. solve_decision. Defined.

Definition set_status (s : TaskStatus) (t : Task) : Task :=
  mkTask (task_id t) (conversation_id t) s (updated_at t) (error_message t).

Definition set_updated_at (z : Z) (t : Task) : Task :=
  mkTask (task_id t) (conversation_id t) (status t) z (error_message t).

Definition set_error_message (msg : string) (t : Task) : Task :=
  mkTask (task_id t) (conversation_id t) (status t) (updated_at t) (Some msg).

Module TaskHooks.

(** Modelled from the spec: the method [Task.is_finished] of [models.py],
    which reports whether the status is one of COMPLETED, FAILED and
    CANCELLED. *)
Definition is_finished (t : Task) : bool :=
  match status t with
  | COMPLETED | FAILED | CANCELLED => true
  | PENDING | RUNNING => false
  end.

(** Modelled from the spec: the method [Task.start] of [models.py].  It
    performs the transition to RUNNING; [updated_at] being the timestamp
    of the last mutation, the method stamps it with its own clock
    reading. *)
Definition start (now : Z) (t : Task) : Task :=
  set_updated_at now (set_status RUNNING t).

(** Modelled from the spec: the method [Task.complete] of [models.py]:
    the transition to COMPLETED, stamped by the method itself. *)
Definition complete (now : Z) (t : Task) : Task :=
  set_updated_at now (set_status COMPLETED t).

(** Modelled from the spec: the method [Task.fail] of [models.py]: the
    transition to FAILED, attaching the error message, stamped by the
    method itself. *)
Definition fail (now : Z) (msg : string) (t : Task) : Task :=
  set_error_message msg (set_updated_at now (set_status FAILED t)).

(** Modelled from the spec: the method [Task.cancel] of [models.py]: the
    transition to CANCELLED, stamped by the method itself. *)
Definition cancel (now : Z) (t : Task) : Task :=
  set_updated_at now (set_status CANCELLED t).

End TaskHooks.

(** ** The registry ([TaskManager]) *)

(** [self._tasks]: the in-memory store keyed by task id. *)
Abbreviation registry := (gmap string Task).

(** [TaskManager.__init__]: the store starts empty. *)
Definition init : registry := ∅.

(** [_update_task_no_lock]: [self._tasks[task.task_id] = task]. *)
Definition _update_task_no_lock (task : Task) (tasks : registry) : registry :=
  <[task_id task := task]> tasks.

(** [update_task]: stamp [updated_at] with the clock, then store. *)
Definition update_task (now : Z) (task : Task) (tasks : registry) : registry :=
  let task := set_updated_at now task in
  _update_task_no_lock task tasks.

(** [_get_task]: [self._tasks.get(task_id)]; [None] when the id is absent. *)
Definition _get_task (id : string) (tasks : registry) : option Task :=
  tasks !! id.

(** [start_task]. *)
Definition start_task (now : Z) (id : string) (tasks : registry)
  : bool * registry :=
  match _get_task id tasks with
  | None => (false, tasks)
  | Some task =>
      if negb (bool_decide (status task = PENDING)) then (false, tasks)
      else
        let task := TaskHooks.start now task in
        (true, _update_task_no_lock task tasks)
  end.

(** [complete_task]. *)
Definition complete_task (now : Z) (id : string) (tasks : registry)
  : bool * registry :=
  match _get_task id tasks with
  | None => (false, tasks)
  | Some task =>
      if TaskHooks.is_finished task then (false, tasks)
      else
        let task := TaskHooks.complete now task in
        (true, _update_task_no_lock task tasks)
  end.

(** [fail_task]. *)
Definition fail_task (now : Z) (id : string) (msg : string) (tasks : registry)
  : bool * registry :=
  match _get_task id tasks with
  | None => (false, tasks)
  | Some task =>
      if TaskHooks.is_finished task then (false, tasks)
      else
        let task := TaskHooks.fail now msg task in
        (true, _update_task_no_lock task tasks)
  end.

(** [cancel_task]. *)
Definition cancel_task (now : Z) (id : string) (tasks : registry)
  : bool * registry :=
  match _get_task id tasks with
  | None => (false, tasks)
  | Some task =>
      if TaskHooks.is_finished task then (false, tasks)
      else
        let task := TaskHooks.cancel now task in
        (true, _update_task_no_lock task tasks)
  end.

(** [self._tasks.values()]: the stored records.  A Python dictionary lists
    them in insertion order, the finite map in an order of its own; the loop
    below writes every record under its own [task_id], so for a store in
    which these are pairwise distinct the order of the turns is immaterial,
    and no turn changes a record that a later turn reads. *)
Definition values (tasks : registry) : list Task :=
  (map_to_list tasks).*2.

(** One turn of the loop of [cancel_conversation_tasks]: the state is the
    store together with [cancelled_count].  Every [task.cancel()] reads the
    clock anew: [now i] is the reading of the cancellation that finds
    [cancelled_count = i]. *)
Definition cancel_step (now : nat → Z) (acc : registry * nat) (task : Task)
  : registry * nat :=
  if negb (TaskHooks.is_finished task)
  then (_update_task_no_lock (TaskHooks.cancel (now acc.2) task) acc.1,
        S acc.2)
  else acc.

(** [cancel_conversation_tasks]: the list comprehension takes the snapshot
    of the matching tasks, the loop cancels the unfinished ones. *)
Definition cancel_conversation_tasks (now : nat → Z) (conv : string)
    (tasks : registry) : nat * registry :=
  let selected :=
    filter (λ t, conversation_id t = conv) (values tasks) in
  let r := foldl (cancel_step now) (tasks, 0%nat) selected in
  (r.2, r.1).


(** ** Well-keyed stores

    Every write of the manager goes through [_update_task_no_lock] and
    binds a record to its own [task_id].  A store built by the manager
    therefore keeps every record under the id the record carries; the spec
    calls this "mapping [task_id → Task], at most one record per
    [task_id]".  In Python the dictionary holds references: a transition
    mutates the stored object in place and re-binds it under
    [task.task_id].  On a well-keyed store the re-binding hits the key the
    object was found under, and the value-level model above coincides with
    the reference-level behaviour. *)
Definition keyed_by_id (tasks : registry) : Prop :=
  map_Forall (λ k t, task_id t = k) tasks.

(** ** Calls and their results, for statements about every operation *)

Inductive call : Type :=
  | UpdateTask (task : Task)
  | StartTask (id : string)
  | CompleteTask (id : string)
  | FailTask (id : string) (msg : string)
  | CancelTask (id : string)
  | CancelConversationTasks (conv : string).

Inductive result : Type :=
  | RNone
  | RBool (b : bool)
  | RInt (n : nat).

(** One call of a method of the manager; [now] gives the clock readings
    taken during the call, the single-task methods take one. *)
Definition run (now : nat → Z) (c : call) (tasks : registry)
  : result * registry :=
  match c with
  | UpdateTask task => (RNone, update_task (now 0%nat) task tasks)
  | StartTask id => prod_map RBool (λ m, m) (start_task (now 0%nat) id tasks)
  | CompleteTask id =>
      prod_map RBool (λ m, m) (complete_task (now 0%nat) id tasks)
  | FailTask id msg =>
      prod_map RBool (λ m, m) (fail_task (now 0%nat) id msg tasks)
  | CancelTask id => prod_map RBool (λ m, m) (cancel_task (now 0%nat) id tasks)
  | CancelConversationTasks conv =>
      prod_map RInt (λ m, m) (cancel_conversation_tasks now conv tasks)
  end.

(** A call that drives a status transition: every method but [update_task]. *)
Definition is_transition (c : call) : bool :=
  match c with
  | UpdateTask _ => false
  | _ => true
  end.

(** ** The shape shared by the four single-task transitions

    [start_task], [complete_task], [fail_task] and [cancel_task] differ in
    the guard and in the method of the task they call.  [guarded_write]
    is that common shape; it serves the proofs only. *)
Definition guarded_write (ok : Task → bool) (f : Task → Task) (id : string)
    (tasks : registry) : bool * registry :=
  match tasks !! id with
  | Some task =>
      if ok task then (true, <[task_id (f task) := f task]> tasks)
      else (false, tasks)
  | None => (false, tasks)
  end.

Definition is_pending (t : Task) : bool := bool_decide (status t = PENDING).
Definition unfinished (t : Task) : bool := negb (TaskHooks.is_finished t).

(** The loop of [cancel_conversation_tasks], started from any store and
    count. *)
Definition cancel_loop (now : nat → Z) (m : registry) (n : nat)
    (l : list Task) : registry * nat :=
  foldl (cancel_step now) (m, n) l.

(** Stores that the manager can reach from [__init__] by its own calls. *)
Inductive reachable : registry → Prop :=
  | reachable_init : reachable init
  | reachable_run now c tasks :
      reachable tasks → reachable (run now c tasks).2.

(** The status recorded for an id, if any. *)
Definition status_of (id : string) (tasks : registry) : option TaskStatus :=
  status <$> tasks !! id.

(** The method of the task that a call invokes. *)
Definition hook_of (c : call) (now : Z) : Task → Task :=
  match c with
  | UpdateTask _ => λ t, t
  | StartTask _ => TaskHooks.start now
  | CompleteTask _ => TaskHooks.complete now
  | FailTask _ msg => TaskHooks.fail now msg
  | CancelTask _ | CancelConversationTasks _ => TaskHooks.cancel now
  end.

#[global] Instance keyed_by_id_dec (tasks : registry) :
  Decision (keyed_by_id tasks).
Proof. unfold keyed_by_id. apply _. Defined.

(** ** Concurrent callers and the lock

    Every public method of the manager is a coroutine whose whole body
    stands under [async with self._lock].  A coroutine waits at the lock,
    enters when it finds the lock free and takes it, runs its body, and
    gives the lock back when it leaves.  The scheduler may pick any
    coroutine that can move.  The body of a single-task method and of
    [update_task] is one move; the body of [cancel_conversation_tasks] is
    taken apart into the move that builds the snapshot [tasks], one move per
    turn of the loop, and the move that leaves the loop, so that a schedule
    is free to try other coroutines in the middle of the scan. *)

(** Where a coroutine stands in its method. *)
Inductive position : Type :=
  | Waiting
  | Entered
  | Scanning (rest : list Task) (cancelled_count : nat)
  | Leaving (r : result)
  | Returned (r : result).

(** A coroutine: the call it makes, the clock readings it will take, and
    where it stands. *)
Record coroutine : Type := mkCoroutine {
  its_call : call;
  its_clock : nat → Z;
  its_position : position
}.

(** The manager with its callers: [self._tasks], whether [self._lock] is
    taken, the coroutines, and the order in which they took the lock so far
    (a record of the history, oldest first; no move reads it). *)
Record world : Type := mkWorld {
  w_tasks : registry;
  w_locked : bool;
  w_pool : list coroutine;
  w_acquired : list nat
}.

Definition move_to (p : position) (co : coroutine) : coroutine :=
  mkCoroutine (its_call co) (its_clock co) p.

(** The body of a method, from the place the coroutine stands at: the store
    and the place after one move. *)
Definition body_move (co : coroutine) (tasks : registry)
  : option (registry * position) :=
  match its_position co with
  | Entered =>
      match its_call co with
      | CancelConversationTasks conv =>
          let selected :=
            filter (λ t, conversation_id t = conv) (values tasks) in
          Some (tasks, Scanning selected 0%nat)
      | c =>
          let r := run (its_clock co) c tasks in
          Some (r.2, Leaving r.1)
      end
  | Scanning (task :: rest) n =>
      let acc := cancel_step (its_clock co) (tasks, n) task in
      Some (acc.1, Scanning rest acc.2)
  | Scanning [] n => Some (tasks, Leaving (RInt n))
  | Waiting | Leaving _ | Returned _ => None
  end.

(** One move of coroutine [i], if it can move. *)
Definition step_at (i : nat) (w : world) : option world :=
  match w_pool w !! i with
  | None => None
  | Some co =>
      match its_position co with
      | Waiting =>
          if w_locked w then None
          else Some (mkWorld (w_tasks w) true
                       (<[i := move_to Entered co]> (w_pool w))
                       (w_acquired w ++ [i]))
      | Leaving r =>
          Some (mkWorld (w_tasks w) false
                  (<[i := move_to (Returned r) co]> (w_pool w))
                  (w_acquired w))
      | Returned _ => None
      | Entered | Scanning _ _ =>
          match body_move co (w_tasks w) with
          | Some (tasks, p) =>
              Some (mkWorld tasks (w_locked w)
                      (<[i := move_to p co]> (w_pool w)) (w_acquired w))
          | None => None
          end
      end
  end.

(** A schedule names the coroutine that moves next, move after move. *)
Fixpoint run_schedule (schedule : list nat) (w : world) : option world :=
  match schedule with
  | [] => Some w
  | i :: schedule =>
      match step_at i w with
      | Some w' => run_schedule schedule w'
      | None => None
      end
  end.

(** The calls are made on a store, none has taken the lock yet. *)
Definition spawn (calls : list (call * (nat → Z))) : list coroutine :=
  (λ c, mkCoroutine c.1 c.2 Waiting) <$> calls.

Definition starting (tasks : registry) (calls : list (call * (nat → Z)))
  : world :=
  mkWorld tasks false (spawn calls) [].

Definition has_returned (co : coroutine) : bool :=
  match its_position co with
  | Returned _ => true
  | _ => false
  end.

Definition all_returned (w : world) : bool := forallb has_returned (w_pool w).

(** Holding the lock: between entering and leaving. *)
Definition inside (co : coroutine) : bool :=
  match its_position co with
  | Entered | Scanning _ _ | Leaving _ => true
  | Waiting | Returned _ => false
  end.

(** The calls made one after the other, in a given order: the store and the
    value each call returned. *)
Definition serial_step (calls : list (call * (nat → Z)))
    (acc : registry * gmap nat result) (i : nat)
  : registry * gmap nat result :=
  match calls !! i with
  | Some (c, clock) =>
      let r := run clock c acc.1 in (r.2, <[i := r.1]> acc.2)
  | None => acc
  end.

Definition serial (calls : list (call * (nat → Z))) (tasks : registry)
    (order : list nat) : registry * gmap nat result :=
  foldl (serial_step calls) (tasks, ∅) order.

Definition returned_value (co : coroutine) : option result :=
  match its_position co with
  | Returned r => Some r
  | _ => None
  end.

(** The calls that the coroutines of a pool make. *)
Definition calls_of (pool : list coroutine) : list (call * (nat → Z)) :=
  (λ co, (its_call co, its_clock co)) <$> pool.

(** The holder of the lock found the store [found] when it entered; the
    store is now [tasks].  What is left of its body takes [tasks] to where
    the whole method takes [found]. *)
Definition holder_on_track (found tasks : registry) (co : coroutine) : Prop :=
  match its_position co with
  | Entered => tasks = found
  | Scanning rest n =>
      ∃ conv, its_call co = CancelConversationTasks conv
        ∧ cancel_loop (its_clock co) tasks n rest
          = cancel_loop (its_clock co) found 0
              (filter (λ t, conversation_id t = conv) (values found))
  | Leaving r => run (its_clock co) (its_call co) found = (r, tasks)
  | Waiting | Returned _ => False
  end.

(** The invariant of the worlds that [calls] made on [tasks0] can reach. *)
Record consistent (calls : list (call * (nat → Z))) (tasks0 : registry)
    (w : world) : Prop := mkConsistent {
  cons_calls : calls_of (w_pool w) = calls;
  cons_nodup : NoDup (w_acquired w);
  cons_acquired : ∀ i,
    i ∈ w_acquired w
    ↔ ∃ co, w_pool w !! i = Some co ∧ its_position co ≠ Waiting;
  cons_unlocked :
    w_locked w = false →
    (∀ i co, w_pool w !! i = Some co → inside co = false)
    ∧ w_tasks w = (serial calls tasks0 (w_acquired w)).1
    ∧ (∀ i co r, w_pool w !! i = Some co → its_position co = Returned r →
         (serial calls tasks0 (w_acquired w)).2 !! i = Some r);
  cons_locked :
    w_locked w = true →
    ∃ (prev : list nat) (h : nat) co,
      w_acquired w = (prev ++ [h])%list
      ∧ w_pool w !! h = Some co
      ∧ (∀ j co', j ≠ h → w_pool w !! j = Some co' → inside co' = false)
      ∧ holder_on_track (serial calls tasks0 prev).1 (w_tasks w) co
      ∧ (∀ j co' r, w_pool w !! j = Some co' →
           its_position co' = Returned r →
           (serial calls tasks0 prev).2 !! j = Some r)
}.

(** How far a coroutine is from having returned: the stage it is in, and
    within the loop the turns that are left.  Every move lowers the first,
    or keeps the first and lowers the second. *)
Definition stage (co : coroutine) : nat :=
  match its_position co with
  | Waiting => 3
  | Entered => 2
  | Scanning _ _ | Leaving _ => 1
  | Returned _ => 0
  end.

Definition turns_left (co : coroutine) : nat :=
  match its_position co with
  | Scanning rest _ => S (length rest)
  | _ => 0
  end.

Definition stages (w : world) : nat := sum_list (stage <$> w_pool w).
Definition turns (w : world) : nat := sum_list (turns_left <$> w_pool w).

(** ** The scenarios of the spec, as concrete stores *)

Definition T1 : Task := mkTask "T1" "conv-1" PENDING 0 None.
Definition T2 : Task := mkTask "T2" "conv-2" PENDING 0 None.
Definition T3 : Task := mkTask "T3" "conv-2" COMPLETED 0 None.

Definition scenario_store : registry :=
  update_task 3 T3 (update_task 2 T2 (update_task 1 T1 init)).

(** Three callers at once: one cancels "conv-2", one starts T2, one records
    a new task T4 in "conv-2".  In the schedule the batch caller takes the
    lock first, then the third caller, then the second. *)
Definition scenario_calls : list (call * (nat → Z)) :=
  [ (CancelConversationTasks "conv-2", λ _, 10);
    (StartTask "T2", λ _, 11);
    (UpdateTask (mkTask "T4" "conv-2" PENDING 0 None), λ _, 12) ].

Definition scenario_schedule : list nat :=
  [0; 0; 0; 0; 0; 0; 2; 2; 2; 1; 1; 1]%nat.

(** ** Sequences of calls, and views of the store *)


(** Calls made one after the other, each with its clock readings: the store
    at the end. *)
Definition run_all (calls : list (call * (nat → Z))) (tasks : registry)
  : registry :=
  foldl (λ m c, (run c.2 c.1 m).2) tasks calls.

(** How far a status is along the lifecycle. *)
Definition rank (s : TaskStatus) : nat :=
  match s with
  | PENDING => 0
  | RUNNING => 1
  | COMPLETED | FAILED | CANCELLED => 2
  end.

(** [cancel_task] called for one id after the other, [now id] being the
    clock reading of the call for [id]: the number of calls that returned
    [True], and the store at the end. *)
Definition cancel_each_from (now : string → Z) (n : nat) (ids : list string)
    (tasks : registry) : nat * registry :=
  foldl (λ acc id,
           let r := cancel_task (now id) id acc.2 in
           (if r.1 then S acc.1 else acc.1, r.2))
        (n, tasks) ids.

Definition cancel_each (now : string → Z) (ids : list string)
    (tasks : registry) : nat * registry :=
  cancel_each_from now 0 ids tasks.

(** A record with its timestamp blanked, to compare stores up to
    [updated_at]. *)
Definition untimed (t : Task) : Task := set_updated_at 0 t.

(** The tasks of a conversation that are not finished. *)
Definition open_in (conv : string) (kt : string * Task) : Prop :=
  TaskHooks.is_finished kt.2 = false ∧ conversation_id kt.2 = conv.

#[global] Instance open_in_dec conv kt : Decision (open_in conv kt).
Proof. unfold open_in. apply _. Defined.



(** What the batch cancellation does to one task of the store, timestamps
    aside. *)
Definition close (conv : string) (t : Task) : Task :=
  if bool_decide (conversation_id t = conv) && unfinished t
  then set_status CANCELLED t else t.

(** ** The manager over any methods of the task

    The transitions call [task.start()], [task.complete()],
    [task.fail(msg)], [task.cancel()] and [task.is_finished()] and write the
    task back.  To tell what the manager does from what these methods do,
    the same code is written once more with the methods left open. *)

(** The methods of the task that the manager calls.  [m_cancel i] is the
    call of [task.cancel()] that finds [cancelled_count = i]; the
    single-task methods call each method once. *)
Record task_methods : Type := mkTaskMethods {
  m_is_finished : Task → bool;
  m_start : Task → Task;
  m_complete : Task → Task;
  m_fail : string → Task → Task;
  m_cancel : nat → Task → Task
}.

(** The methods of [Task] as modelled above, with the clock readings that
    they take. *)
Definition methods_at (now : nat → Z) : task_methods :=
  mkTaskMethods TaskHooks.is_finished
    (TaskHooks.start (now 0%nat)) (TaskHooks.complete (now 0%nat))
    (TaskHooks.fail (now 0%nat)) (λ i, TaskHooks.cancel (now i)).

(** Methods that set the status and nothing else: they leave [updated_at]
    as they find it. *)
Definition status_only_methods : task_methods :=
  mkTaskMethods TaskHooks.is_finished
    (set_status RUNNING) (set_status COMPLETED)
    (λ _, set_status FAILED) (λ _, set_status CANCELLED).

(** [start_task], the methods of the task left open. *)
Definition start_task_with (M : task_methods) (id : string)
    (tasks : registry) : bool * registry :=
  match _get_task id tasks with
  | None => (false, tasks)
  | Some task =>
      if negb (bool_decide (status task = PENDING)) then (false, tasks)
      else
        let task := m_start M task in
        (true, _update_task_no_lock task tasks)
  end.

(** [complete_task], the methods of the task left open. *)
Definition complete_task_with (M : task_methods) (id : string)
    (tasks : registry) : bool * registry :=
  match _get_task id tasks with
  | None => (false, tasks)
  | Some task =>
      if m_is_finished M task then (false, tasks)
      else
        let task := m_complete M task in
        (true, _update_task_no_lock task tasks)
  end.

(** [fail_task], the methods of the task left open. *)
Definition fail_task_with (M : task_methods) (id : string) (msg : string)
    (tasks : registry) : bool * registry :=
  match _get_task id tasks with
  | None => (false, tasks)
  | Some task =>
      if m_is_finished M task then (false, tasks)
      else
        let task := m_fail M msg task in
        (true, _update_task_no_lock task tasks)
  end.

(** [cancel_task], the methods of the task left open. *)
Definition cancel_task_with (M : task_methods) (id : string)
    (tasks : registry) : bool * registry :=
  match _get_task id tasks with
  | None => (false, tasks)
  | Some task =>
      if m_is_finished M task then (false, tasks)
      else
        let task := m_cancel M 0%nat task in
        (true, _update_task_no_lock task tasks)
  end.

(** One turn of the loop of [cancel_conversation_tasks], the methods of the
    task left open. *)
Definition cancel_step_with (M : task_methods) (acc : registry * nat)
    (task : Task) : registry * nat :=
  if negb (m_is_finished M task)
  then (_update_task_no_lock (m_cancel M acc.2 task) acc.1, S acc.2)
  else acc.

(** [cancel_conversation_tasks], the methods of the task left open. *)
Definition cancel_conversation_tasks_with (M : task_methods) (conv : string)
    (tasks : registry) : nat * registry :=
  let selected :=
    filter (λ t, conversation_id t = conv) (values tasks) in
  let r := foldl (cancel_step_with M) (tasks, 0%nat) selected in
  (r.2, r.1).

(** One call of a method of the manager, the methods of the task left open;
    [now] is the clock reading that [update_task] takes. *)
Definition run_with (M : task_methods) (now : Z) (c : call)
    (tasks : registry) : result * registry :=
  match c with
  | UpdateTask task => (RNone, update_task now task tasks)
  | StartTask id => prod_map RBool (λ m, m) (start_task_with M id tasks)
  | CompleteTask id => prod_map RBool (λ m, m) (complete_task_with M id tasks)
  | FailTask id msg =>
      prod_map RBool (λ m, m) (fail_task_with M id msg tasks)
  | CancelTask id => prod_map RBool (λ m, m) (cancel_task_with M id tasks)
  | CancelConversationTasks conv =>
      prod_map RInt (λ m, m) (cancel_conversation_tasks_with M conv tasks)
  end.

(** The method of the task that a call invokes, as its [i]-th invocation. *)
Definition method_of (M : task_methods) (c : call) (i : nat) : Task → Task :=
  match c with
  | UpdateTask _ => λ t, t
  | StartTask _ => m_start M
  | CompleteTask _ => m_complete M
  | FailTask _ msg => m_fail M msg
  | CancelTask _ => m_cancel M 0%nat
  | CancelConversationTasks _ => m_cancel M i
  end.

(** * Properties *)

(** ** Facts about the task entity *)

Section task_facts.
Context (now : Z) (msg : string) (t : Task).

Lemma is_finished_spec :
  TaskHooks.is_finished t = true
  ↔ status t = COMPLETED ∨ status t = FAILED ∨ status t = CANCELLED.
Proof.
  unfold TaskHooks.is_finished.
  destruct (status t); split; try done; intuition congruence.
Qed.

Lemma not_finished_spec :
  TaskHooks.is_finished t = false ↔ status t = PENDING ∨ status t = RUNNING.
Proof.
  unfold TaskHooks.is_finished.
  destruct (status t); split; try done; intuition congruence.
Qed.

Lemma pending_not_finished :
  status t = PENDING → TaskHooks.is_finished t = false.
Proof. intros H. apply not_finished_spec. by left. Qed.

Lemma finished_not_pending :
  TaskHooks.is_finished t = true → status t ≠ PENDING.
Proof. rewrite is_finished_spec. intros [H|[H|H]]; rewrite H; done. Qed.

Lemma task_id_start : task_id (TaskHooks.start now t) = task_id t.
Proof. reflexivity. Qed.
Lemma task_id_complete : task_id (TaskHooks.complete now t) = task_id t.
Proof. reflexivity. Qed.
Lemma task_id_fail : task_id (TaskHooks.fail now msg t) = task_id t.
Proof. reflexivity. Qed.
Lemma task_id_cancel : task_id (TaskHooks.cancel now t) = task_id t.
Proof. reflexivity. Qed.
Lemma task_id_set_updated_at : task_id (set_updated_at now t) = task_id t.
Proof. reflexivity. Qed.

Lemma conversation_id_cancel :
  conversation_id (TaskHooks.cancel now t) = conversation_id t.
Proof. reflexivity. Qed.

Lemma status_start : status (TaskHooks.start now t) = RUNNING.
Proof. reflexivity. Qed.
Lemma status_complete : status (TaskHooks.complete now t) = COMPLETED.
Proof. reflexivity. Qed.
Lemma status_fail : status (TaskHooks.fail now msg t) = FAILED.
Proof. reflexivity. Qed.
Lemma status_cancel : status (TaskHooks.cancel now t) = CANCELLED.
Proof. reflexivity. Qed.

Lemma is_finished_cancel :
  TaskHooks.is_finished (TaskHooks.cancel now t) = true.
Proof. reflexivity. Qed.
End task_facts.


Lemma start_task_shape now id tasks :
  start_task now id tasks
  = guarded_write is_pending (TaskHooks.start now) id tasks.
Proof.
  unfold start_task, guarded_write, _get_task, _update_task_no_lock, is_pending.
  destruct (tasks !! id) as [t|]; [|done]. by destruct (bool_decide _).
Qed.

Lemma complete_task_shape now id tasks :
  complete_task now id tasks
  = guarded_write unfinished (TaskHooks.complete now) id tasks.
Proof.
  unfold complete_task, guarded_write, _get_task, _update_task_no_lock,
    unfinished.
  destruct (tasks !! id) as [t|]; [|done]. by destruct (TaskHooks.is_finished _).
Qed.

Lemma fail_task_shape now id msg tasks :
  fail_task now id msg tasks
  = guarded_write unfinished (TaskHooks.fail now msg) id tasks.
Proof.
  unfold fail_task, guarded_write, _get_task, _update_task_no_lock, unfinished.
  destruct (tasks !! id) as [t|]; [|done]. by destruct (TaskHooks.is_finished _).
Qed.

Lemma cancel_task_shape now id tasks :
  cancel_task now id tasks
  = guarded_write unfinished (TaskHooks.cancel now) id tasks.
Proof.
  unfold cancel_task, guarded_write, _get_task, _update_task_no_lock,
    unfinished.
  destruct (tasks !! id) as [t|]; [|done]. by destruct (TaskHooks.is_finished _).
Qed.

Section guarded_write_facts.
Context (ok : Task → bool) (f : Task → Task).
Implicit Types (id k : string) (tasks : registry).

Lemma guarded_write_true id tasks :
  (guarded_write ok f id tasks).1 = true
  ↔ ∃ t, tasks !! id = Some t ∧ ok t = true.
Proof.
  unfold guarded_write. destruct (tasks !! id) as [t|] eqn:E.
  - destruct (ok t) eqn:Ek; simpl; split; try done.
    + intros _. by exists t.
    + intros (t0 & [= <-] & Hok). congruence.
  - simpl. split; [done|]. by intros (t0 & ? & _).
Qed.

Lemma guarded_write_false id tasks :
  (guarded_write ok f id tasks).1 = false
  → guarded_write ok f id tasks = (false, tasks).
Proof.
  unfold guarded_write. destruct (tasks !! id) as [t|]; [|done].
  by destruct (ok t).
Qed.

Lemma guarded_write_absent id tasks :
  tasks !! id = None → guarded_write ok f id tasks = (false, tasks).
Proof. unfold guarded_write. by intros ->. Qed.

Lemma guarded_write_refused id tasks t :
  tasks !! id = Some t → ok t = false
  → guarded_write ok f id tasks = (false, tasks).
Proof. unfold guarded_write. by intros -> ->. Qed.

Lemma guarded_write_accepted id tasks t :
  tasks !! id = Some t → ok t = true
  → guarded_write ok f id tasks = (true, <[task_id (f t) := f t]> tasks).
Proof. unfold guarded_write. by intros -> ->. Qed.

Lemma guarded_write_dom_subseteq id tasks :
  dom tasks ⊆ dom (guarded_write ok f id tasks).2.
Proof.
  unfold guarded_write. destruct (tasks !! id) as [t|]; [|done].
  destruct (ok t); [|done]. apply dom_insert_subseteq.
Qed.

(** Whatever is stored after the call was stored before it, or is what
    the method of the task returned for a record stored before it. *)
Lemma guarded_write_provenance id tasks k t' :
  (guarded_write ok f id tasks).2 !! k = Some t'
  → tasks !! k = Some t' ∨ ∃ t, tasks !! id = Some t ∧ t' = f t.
Proof.
  unfold guarded_write. destruct (tasks !! id) as [t|] eqn:E; [|by left].
  destruct (ok t); [|by left]. simpl.
  destruct (decide (task_id (f t) = k)) as [<-|Hne].
  - rewrite lookup_insert_eq. intros [= <-]. right. eauto.
  - rewrite lookup_insert_ne by done. by left.
Qed.

Hypothesis f_task_id : ∀ t, task_id (f t) = task_id t.

Lemma guarded_write_keyed id tasks :
  keyed_by_id tasks → keyed_by_id (guarded_write ok f id tasks).2.
Proof.
  intros Hk. unfold guarded_write. destruct (tasks !! id) as [t|]; [|done].
  destruct (ok t); [|done]. simpl. by apply map_Forall_insert_2.
Qed.

Lemma guarded_write_accepted_keyed id tasks t :
  keyed_by_id tasks → tasks !! id = Some t → ok t = true
  → guarded_write ok f id tasks = (true, <[id := f t]> tasks).
Proof.
  intros Hk Hid Hok. rewrite (guarded_write_accepted _ _ t) by done.
  by rewrite f_task_id, (Hk _ _ Hid).
Qed.

Lemma guarded_write_dom id tasks :
  keyed_by_id tasks → dom (guarded_write ok f id tasks).2 = dom tasks.
Proof.
  intros Hk. unfold guarded_write. destruct (tasks !! id) as [t|] eqn:E; [|done].
  destruct (ok t); [|done]. simpl. rewrite f_task_id, (Hk _ _ E).
  apply dom_insert_lookup_L. eauto.
Qed.

Lemma guarded_write_other id k tasks :
  keyed_by_id tasks → k ≠ id
  → (guarded_write ok f id tasks).2 !! k = tasks !! k.
Proof.
  intros Hk Hne. unfold guarded_write.
  destruct (tasks !! id) as [t|] eqn:E; [|done].
  destruct (ok t); [|done]. simpl. rewrite f_task_id, (Hk _ _ E).
  by rewrite lookup_insert_ne.
Qed.
End guarded_write_facts.

(** ** The stored records as a list *)

Lemma elem_of_values (tasks : registry) (t : Task) :
  t ∈ values tasks ↔ ∃ k, tasks !! k = Some t.
Proof.
  unfold values. rewrite list_elem_of_fmap. split.
  - intros [[k t'] [-> Hin]]. exists k. by apply elem_of_map_to_list.
  - intros [k Hk]. exists (k, t). split; [done|]. by apply elem_of_map_to_list.
Qed.

Lemma values_task_ids (tasks : registry) :
  keyed_by_id tasks → task_id <$> values tasks = (map_to_list tasks).*1.
Proof.
  intros Hk. unfold values. rewrite <- list_fmap_compose.
  apply Forall_fmap_ext_1, Forall_forall. intros [k t] Hin. simpl.
  apply elem_of_map_to_list in Hin. by apply Hk.
Qed.

Lemma values_NoDup (tasks : registry) :
  keyed_by_id tasks → NoDup (task_id <$> values tasks).
Proof.
  intros Hk. rewrite values_task_ids by done. apply NoDup_fst_map_to_list.
Qed.

Lemma filter_task_ids_NoDup (P : Task → Prop) `{!∀ t, Decision (P t)}
    (l : list Task) :
  NoDup (task_id <$> l) → NoDup (task_id <$> filter P l).
Proof.
  intros Hnd. apply (sublist_NoDup _ _ Hnd), fmap_sublist, sublist_filter.
Qed.

(** Counting the stored records that satisfy [P], on the list of values
    and on the map. *)
Lemma length_filter_values (P : Task → Prop) `{!∀ t, Decision (P t)}
    (tasks : registry) :
  length (filter P (values tasks))
  = size (filter (λ kt : string * Task, P kt.2) tasks).
Proof.
  unfold values. induction tasks as [|k t tasks Hfresh IH] using map_ind.
  - by rewrite map_to_list_empty, map_filter_empty, map_size_empty.
  - rewrite map_to_list_insert by done. rewrite fmap_cons, filter_cons. simpl.
    rewrite map_filter_insert. simpl. destruct (decide (P t)) as [HP|HP].
    + rewrite length_cons, IH. rewrite map_size_insert_None; [done|].
      apply map_lookup_filter_None. by left.
    + by rewrite IH, delete_id.
Qed.

(** ** The loop of [cancel_conversation_tasks] *)

Section cancel_loop.
Context (now : nat → Z).
Implicit Types (l : list Task) (m : registry) (n : nat) (k : string).

Lemma cancel_loop_nil m n : cancel_loop now m n [] = (m, n).
Proof. reflexivity. Qed.

Lemma cancel_loop_skip m n t l :
  TaskHooks.is_finished t = true
  → cancel_loop now m n (t :: l) = cancel_loop now m n l.
Proof. unfold cancel_loop, cancel_step. simpl. by intros ->. Qed.

Lemma cancel_loop_hit m n t l :
  TaskHooks.is_finished t = false
  → cancel_loop now m n (t :: l)
    = cancel_loop now (<[task_id t := TaskHooks.cancel (now n) t]> m) (S n) l.
Proof. unfold cancel_loop, cancel_step. simpl. by intros ->. Qed.

(** [cancelled_count] grows by one per unfinished task of the snapshot. *)
Lemma cancel_loop_count l m n :
  (cancel_loop now m n l).2
  = (n + length (filter (λ t, TaskHooks.is_finished t = false) l))%nat.
Proof.
  revert m n. induction l as [|t l IH]; intros m n.
  - simpl. lia.
  - rewrite filter_cons. destruct (TaskHooks.is_finished t) eqn:E.
    + rewrite cancel_loop_skip by done. rewrite decide_False by done. apply IH.
    + rewrite cancel_loop_hit by done. rewrite decide_True by done.
      rewrite IH. simpl. lia.
Qed.

(** A key under which the snapshot holds no unfinished task is not
    written. *)
Lemma cancel_loop_untouched l m n k :
  (∀ t, t ∈ l → task_id t = k → TaskHooks.is_finished t = true)
  → (cancel_loop now m n l).1 !! k = m !! k.
Proof.
  revert m n. induction l as [|t l IH]; intros m n Hl; [done|].
  assert (∀ t', t' ∈ l → task_id t' = k → TaskHooks.is_finished t' = true)
    as Hl' by (intros t' Hin; apply Hl; by right).
  destruct (TaskHooks.is_finished t) eqn:E.
  - rewrite cancel_loop_skip by done. by apply IH.
  - rewrite cancel_loop_hit by done. rewrite IH by done.
    apply lookup_insert_ne. intros Heq.
    specialize (Hl t (list_elem_of_here _ _) Heq). congruence.
Qed.

(** An unfinished task of the snapshot ends up cancelled under its id,
    provided the ids of the snapshot are pairwise distinct. *)
Lemma cancel_loop_cancelled l m n t :
  NoDup (task_id <$> l) → t ∈ l → TaskHooks.is_finished t = false
  → ∃ i, (n ≤ i < (cancel_loop now m n l).2)%nat
      ∧ (cancel_loop now m n l).1 !! task_id t
        = Some (TaskHooks.cancel (now i) t).
Proof.
  revert m n. induction l as [|a l IH]; intros m n Hnd Hin Hunf.
  - by apply elem_of_nil in Hin.
  - rewrite fmap_cons in Hnd. apply NoDup_cons in Hnd as [Ha Hnd].
    apply elem_of_cons in Hin as [->|Hin].
    + rewrite cancel_loop_hit by done. exists n. split.
      * rewrite cancel_loop_count. lia.
      * rewrite cancel_loop_untouched; [apply lookup_insert_eq|].
        intros t' Hin' Heq. exfalso. apply Ha. rewrite <- Heq.
        by apply list_elem_of_fmap_2.
    + destruct (TaskHooks.is_finished a) eqn:E.
      * rewrite cancel_loop_skip by done. by apply IH.
      * rewrite cancel_loop_hit by done.
        destruct (IH (<[task_id a := TaskHooks.cancel (now n) a]> m) (S n)
                    Hnd Hin Hunf) as (i & Hi & Hlook).
        exists i. split; [lia|done].
Qed.

Lemma cancel_loop_dom_subseteq l m n : dom m ⊆ dom (cancel_loop now m n l).1.
Proof.
  revert m n. induction l as [|t l IH]; intros m n; [done|].
  destruct (TaskHooks.is_finished t) eqn:E.
  - rewrite cancel_loop_skip by done. apply IH.
  - rewrite cancel_loop_hit by done. etrans; [|apply IH].
    apply dom_insert_subseteq.
Qed.

Lemma cancel_loop_dom l m n :
  (∀ t, t ∈ l → task_id t ∈ dom m) → dom (cancel_loop now m n l).1 = dom m.
Proof.
  revert m n. induction l as [|t l IH]; intros m n Hl; [done|].
  assert (task_id t ∈ dom m) as Ht by (apply Hl; by left).
  assert (∀ t', t' ∈ l → task_id t' ∈ dom m) as Hl'
    by (intros t' Hin; apply Hl; by right).
  destruct (TaskHooks.is_finished t) eqn:E.
  - rewrite cancel_loop_skip by done. by apply IH.
  - rewrite cancel_loop_hit by done.
    assert (dom (<[task_id t := TaskHooks.cancel (now n) t]> m) = dom m)
      as Hdom by (apply dom_insert_lookup_L; by apply elem_of_dom).
    rewrite IH; [done|]. intros t' Hin. rewrite Hdom. by apply Hl'.
Qed.

Lemma cancel_loop_keyed l m n :
  keyed_by_id m → keyed_by_id (cancel_loop now m n l).1.
Proof.
  revert m n. induction l as [|t l IH]; intros m n Hk; [done|].
  destruct (TaskHooks.is_finished t) eqn:E.
  - rewrite cancel_loop_skip by done. by apply IH.
  - rewrite cancel_loop_hit by done. apply IH.
    by apply map_Forall_insert_2.
Qed.

(** Whatever is stored after the loop was stored before it, or is what
    [Task.cancel] returned for a task of the snapshot. *)
Lemma cancel_loop_provenance l m n k t' :
  (cancel_loop now m n l).1 !! k = Some t'
  → m !! k = Some t'
    ∨ ∃ t i, t ∈ l ∧ TaskHooks.is_finished t = false
        ∧ t' = TaskHooks.cancel (now i) t.
Proof.
  revert m n. induction l as [|t l IH]; intros m n Hlook; [by left|].
  destruct (TaskHooks.is_finished t) eqn:E.
  - rewrite cancel_loop_skip in Hlook by done.
    destruct (IH _ _ Hlook) as [?|(t0 & i & Hin & Hunf & ->)]; [by left|].
    right. exists t0, i. split; [by right|done].
  - rewrite cancel_loop_hit in Hlook by done.
    destruct (IH _ _ Hlook) as [Hm|(t0 & i & Hin & Hunf & ->)].
    + destruct (decide (task_id t = k)) as [<-|Hne].
      * rewrite lookup_insert_eq in Hm. injection Hm as <-.
        right. exists t, n. split; [by left|done].
      * rewrite lookup_insert_ne in Hm by done. by left.
    + right. exists t0, i. split; [by right|done].
Qed.
End cancel_loop.

Lemma cancel_conversation_tasks_loop now conv (tasks : registry) :
  cancel_conversation_tasks now conv tasks
  = ((cancel_loop now tasks 0
        (filter (λ t, conversation_id t = conv) (values tasks))).2,
     (cancel_loop now tasks 0
        (filter (λ t, conversation_id t = conv) (values tasks))).1).
Proof. reflexivity. Qed.

(** ** Well-keyedness is an invariant of the manager *)

Lemma keyed_by_id_init : keyed_by_id init.
Proof. apply map_Forall_empty. Qed.

Lemma keyed_by_id_update_task now t (tasks : registry) :
  keyed_by_id tasks → keyed_by_id (update_task now t tasks).
Proof. intros Hk. by apply map_Forall_insert_2. Qed.

Lemma keyed_by_id_cancel_conversation_tasks now conv (tasks : registry) :
  keyed_by_id tasks → keyed_by_id (cancel_conversation_tasks now conv tasks).2.
Proof. apply cancel_loop_keyed. Qed.

Lemma keyed_by_id_run now c (tasks : registry) :
  keyed_by_id tasks → keyed_by_id (run now c tasks).2.
Proof.
  intros Hk. destruct c as [t|id|id|id msg|id|conv]; simpl.
  - by apply keyed_by_id_update_task.
  - rewrite start_task_shape. by apply guarded_write_keyed.
  - rewrite complete_task_shape. by apply guarded_write_keyed.
  - rewrite fail_task_shape. by apply guarded_write_keyed.
  - rewrite cancel_task_shape. by apply guarded_write_keyed.
  - by apply keyed_by_id_cancel_conversation_tasks.
Qed.


Lemma reachable_keyed (tasks : registry) : reachable tasks → keyed_by_id tasks.
Proof.
  induction 1 as [|now c tasks _ IH];
    [apply keyed_by_id_init | by apply keyed_by_id_run].
Qed.

(** ** The batch cancellation on a well-keyed store *)

Section batch_facts.
Context (now : nat → Z) (conv : string) (tasks : registry).
Hypothesis Hkeyed : keyed_by_id tasks.

Let selected := filter (λ t, conversation_id t = conv) (values tasks).

Lemma selected_NoDup : NoDup (task_id <$> selected).
Proof. by apply filter_task_ids_NoDup, values_NoDup. Qed.

Lemma elem_of_selected t :
  t ∈ selected ↔ tasks !! task_id t = Some t ∧ conversation_id t = conv.
Proof.
  unfold selected. rewrite list_elem_of_filter, elem_of_values. split.
  - intros [Hc [k Hk]]. by rewrite (Hkeyed _ _ Hk).
  - intros [Hk Hc]. eauto.
Qed.

Lemma batch_unfinished k t :
  tasks !! k = Some t → conversation_id t = conv
  → TaskHooks.is_finished t = false
  → ∃ i, (i < (cancel_conversation_tasks now conv tasks).1)%nat
      ∧ (cancel_conversation_tasks now conv tasks).2 !! k
        = Some (TaskHooks.cancel (now i) t).
Proof.
  intros Hk Hc Hunf. rewrite cancel_conversation_tasks_loop. simpl.
  assert (task_id t = k) as Hid by by apply Hkeyed.
  destruct (cancel_loop_cancelled now selected tasks 0 t) as (i & Hi & Hl).
  - apply selected_NoDup.
  - apply elem_of_selected. by rewrite Hid.
  - done.
  - exists i. rewrite Hid in Hl. split; [apply Hi|done].
Qed.

Lemma batch_kept k :
  (∀ t, tasks !! k = Some t → conversation_id t = conv
        → TaskHooks.is_finished t = true)
  → (cancel_conversation_tasks now conv tasks).2 !! k = tasks !! k.
Proof.
  intros Hkept. rewrite cancel_conversation_tasks_loop. simpl.
  apply cancel_loop_untouched. intros t Hin Hid.
  apply elem_of_selected in Hin as [Hlook Hc]. rewrite Hid in Hlook.
  by apply Hkept.
Qed.

Lemma batch_dom : dom (cancel_conversation_tasks now conv tasks).2 = dom tasks.
Proof.
  rewrite cancel_conversation_tasks_loop. simpl. apply cancel_loop_dom.
  intros t Hin. apply elem_of_selected in Hin as [Hlook _].
  apply elem_of_dom. eauto.
Qed.
End batch_facts.

Lemma batch_count now conv (tasks : registry) :
  (cancel_conversation_tasks now conv tasks).1
  = size (filter (λ kt : string * Task,
                    TaskHooks.is_finished kt.2 = false
                    ∧ conversation_id kt.2 = conv) tasks).
Proof.
  rewrite cancel_conversation_tasks_loop. simpl. rewrite cancel_loop_count.
  rewrite list_filter_filter. simpl.
  exact (length_filter_values
           (λ t, TaskHooks.is_finished t = false ∧ conversation_id t = conv)
           tasks).
Qed.

(** Without an unfinished task in the conversation the loop writes nothing;
    this needs no assumption on the store. *)
Lemma batch_nothing_to_cancel now conv (tasks : registry) :
  (∀ k t, tasks !! k = Some t → conversation_id t = conv
          → TaskHooks.is_finished t = true)
  → cancel_conversation_tasks now conv tasks = (0%nat, tasks).
Proof.
  intros Hfin. rewrite cancel_conversation_tasks_loop.
  assert (∀ l n m, Forall (λ t, TaskHooks.is_finished t = true) l
                   → cancel_loop now m n l = (m, n)) as Hskip.
  { induction l as [|t l IH]; intros n m Hl; [done|].
    apply Forall_cons in Hl as [Ht Hl]. rewrite cancel_loop_skip by done.
    by apply IH. }
  rewrite Hskip; [done|]. apply Forall_forall. intros t Hin.
  apply list_elem_of_filter in Hin as [Hc Hin].
  apply elem_of_values in Hin as [k Hk]. by eapply Hfin.
Qed.

(** ** Single-task transitions on a well-keyed store *)


Lemma unfinished_true t :
  unfinished t = true ↔ TaskHooks.is_finished t = false.
Proof. unfold unfinished. by destruct (TaskHooks.is_finished t). Qed.

Lemma unfinished_false t :
  unfinished t = false ↔ TaskHooks.is_finished t = true.
Proof. unfold unfinished. by destruct (TaskHooks.is_finished t). Qed.

Lemma is_pending_true t : is_pending t = true ↔ status t = PENDING.
Proof. unfold is_pending. apply bool_decide_eq_true. Qed.

Lemma is_pending_false t : is_pending t = false ↔ status t ≠ PENDING.
Proof. unfold is_pending. apply bool_decide_eq_false. Qed.

Lemma status_of_insert id t (tasks : registry) :
  status_of id (<[id := t]> tasks) = Some (status t).
Proof. unfold status_of. by rewrite lookup_insert_eq. Qed.

Section finishing.
Context (now : Z) (id msg : string) (tasks : registry).

Lemma complete_task_true :
  (complete_task now id tasks).1 = true
  ↔ ∃ t, tasks !! id = Some t ∧ TaskHooks.is_finished t = false.
Proof.
  rewrite complete_task_shape, guarded_write_true.
  by setoid_rewrite unfinished_true.
Qed.

Lemma fail_task_true :
  (fail_task now id msg tasks).1 = true
  ↔ ∃ t, tasks !! id = Some t ∧ TaskHooks.is_finished t = false.
Proof.
  rewrite fail_task_shape, guarded_write_true.
  by setoid_rewrite unfinished_true.
Qed.

Lemma cancel_task_true :
  (cancel_task now id tasks).1 = true
  ↔ ∃ t, tasks !! id = Some t ∧ TaskHooks.is_finished t = false.
Proof.
  rewrite cancel_task_shape, guarded_write_true.
  by setoid_rewrite unfinished_true.
Qed.

Lemma start_task_true :
  (start_task now id tasks).1 = true
  ↔ ∃ t, tasks !! id = Some t ∧ status t = PENDING.
Proof.
  rewrite start_task_shape, guarded_write_true.
  by setoid_rewrite is_pending_true.
Qed.

Lemma start_task_absent :
  tasks !! id = None → start_task now id tasks = (false, tasks).
Proof. rewrite start_task_shape. apply guarded_write_absent. Qed.

Lemma complete_task_absent :
  tasks !! id = None → complete_task now id tasks = (false, tasks).
Proof. rewrite complete_task_shape. apply guarded_write_absent. Qed.

Lemma fail_task_absent :
  tasks !! id = None → fail_task now id msg tasks = (false, tasks).
Proof. rewrite fail_task_shape. apply guarded_write_absent. Qed.

Lemma cancel_task_absent :
  tasks !! id = None → cancel_task now id tasks = (false, tasks).
Proof. rewrite cancel_task_shape. apply guarded_write_absent. Qed.

Context (t : Task) (Hstored : tasks !! id = Some t).

Lemma start_task_not_pending :
  status t ≠ PENDING → start_task now id tasks = (false, tasks).
Proof.
  intros Hs. rewrite start_task_shape.
  apply (guarded_write_refused _ _ _ _ t); [done|]. by apply is_pending_false.
Qed.

Lemma complete_task_finished :
  TaskHooks.is_finished t = true → complete_task now id tasks = (false, tasks).
Proof.
  intros Hs. rewrite complete_task_shape.
  apply (guarded_write_refused _ _ _ _ t); [done|]. by apply unfinished_false.
Qed.

Lemma fail_task_finished :
  TaskHooks.is_finished t = true
  → fail_task now id msg tasks = (false, tasks).
Proof.
  intros Hs. rewrite fail_task_shape.
  apply (guarded_write_refused _ _ _ _ t); [done|]. by apply unfinished_false.
Qed.

Lemma cancel_task_finished :
  TaskHooks.is_finished t = true → cancel_task now id tasks = (false, tasks).
Proof.
  intros Hs. rewrite cancel_task_shape.
  apply (guarded_write_refused _ _ _ _ t); [done|]. by apply unfinished_false.
Qed.

Context (Hkeyed : keyed_by_id tasks).

Lemma start_task_pending :
  status t = PENDING
  → start_task now id tasks = (true, <[id := TaskHooks.start now t]> tasks).
Proof.
  intros Hs. rewrite start_task_shape.
  apply guarded_write_accepted_keyed; [done..|]. by apply is_pending_true.
Qed.

Lemma complete_task_unfinished :
  TaskHooks.is_finished t = false
  → complete_task now id tasks
    = (true, <[id := TaskHooks.complete now t]> tasks).
Proof.
  intros Hs. rewrite complete_task_shape.
  apply guarded_write_accepted_keyed; [done..|]. by apply unfinished_true.
Qed.

Lemma fail_task_unfinished :
  TaskHooks.is_finished t = false
  → fail_task now id msg tasks
    = (true, <[id := TaskHooks.fail now msg t]> tasks).
Proof.
  intros Hs. rewrite fail_task_shape.
  apply guarded_write_accepted_keyed; [done..|]. by apply unfinished_true.
Qed.

Lemma cancel_task_unfinished :
  TaskHooks.is_finished t = false
  → cancel_task now id tasks
    = (true, <[id := TaskHooks.cancel now t]> tasks).
Proof.
  intros Hs. rewrite cancel_task_shape.
  apply guarded_write_accepted_keyed; [done..|]. by apply unfinished_true.
Qed.
End finishing.

(** After the batch cancellation every stored task of the conversation is
    finished. *)
Lemma batch_leaves_finished now conv (tasks : registry) k t' :
  keyed_by_id tasks
  → (cancel_conversation_tasks now conv tasks).2 !! k = Some t'
  → conversation_id t' = conv
  → TaskHooks.is_finished t' = true.
Proof.
  intros Hk Ht' Hc'. destruct (tasks !! k) as [t|] eqn:Ht.
  - destruct (decide (conversation_id t = conv)) as [Hc|Hc];
      [destruct (TaskHooks.is_finished t) eqn:Hf|].
    + rewrite (batch_kept now conv tasks Hk k) in Ht'; [by simplify_eq|].
      intros t0 Ht0 _. by simplify_eq.
    + destruct (batch_unfinished now conv tasks Hk k t Ht Hc Hf)
        as (i & _ & Hl).
      rewrite Hl in Ht'. by simplify_eq.
    + rewrite (batch_kept now conv tasks Hk k) in Ht'; [by simplify_eq|].
      intros t0 Ht0 Hc0. by simplify_eq.
  - rewrite (batch_kept now conv tasks Hk k) in Ht'; [by simplify_eq|].
    intros t0 Ht0. by simplify_eq.
Qed.

(** A count of zero means that the conversation had no unfinished task. *)
Lemma batch_count_zero now conv (tasks : registry) :
  (cancel_conversation_tasks now conv tasks).1 = 0%nat
  ↔ ∀ k t, tasks !! k = Some t → conversation_id t = conv
           → TaskHooks.is_finished t = true.
Proof.
  split.
  - rewrite batch_count, map_size_empty_iff, map_empty_filter.
    intros Hall k t Ht Hc. specialize (Hall k t Ht). simpl in Hall.
    destruct (TaskHooks.is_finished t); [done|]. exfalso. by apply Hall.
  - intros Hfin. by rewrite batch_nothing_to_cancel.
Qed.

Lemma fst_not_true (r : bool * registry) : r.1 = false ↔ ¬ r.1 = true.
Proof. destruct r as [[] ?]; simpl; split; congruence. Qed.

Lemma not_stored_pending id (tasks : registry) :
  ¬ (∃ t, tasks !! id = Some t ∧ status t = PENDING)
  ↔ tasks !! id = None ∨ ∃ t, tasks !! id = Some t ∧ status t ≠ PENDING.
Proof.
  destruct (tasks !! id) as [t|]; split.
  - intros Hno. right. exists t. split; [done|]. intros Hs. apply Hno. eauto.
  - intros [?|(t0 & [= <-] & Hs)] (t1 & [= <-] & Hs'); done.
  - by left.
  - intros _ (t & ? & _). done.
Qed.

Lemma not_stored_unfinished id (tasks : registry) :
  ¬ (∃ t, tasks !! id = Some t ∧ TaskHooks.is_finished t = false)
  ↔ tasks !! id = None
    ∨ ∃ t, tasks !! id = Some t ∧ TaskHooks.is_finished t = true.
Proof.
  destruct (tasks !! id) as [t|]; split.
  - intros Hno. right. exists t. split; [done|].
    destruct (TaskHooks.is_finished t) eqn:E; [done|]. exfalso. apply Hno. eauto.
  - intros [?|(t0 & [= <-] & Hs)] (t1 & [= <-] & Hs'); [done|congruence].
  - by left.
  - intros _ (t & ? & _). done.
Qed.

(** ** The store after a call *)

Lemma run_store nows c (tasks : registry) :
  (run nows c tasks).2
  = match c with
    | UpdateTask t => update_task (nows 0%nat) t tasks
    | StartTask id => (start_task (nows 0%nat) id tasks).2
    | CompleteTask id => (complete_task (nows 0%nat) id tasks).2
    | FailTask id msg => (fail_task (nows 0%nat) id msg tasks).2
    | CancelTask id => (cancel_task (nows 0%nat) id tasks).2
    | CancelConversationTasks conv =>
        (cancel_conversation_tasks nows conv tasks).2
    end.
Proof. by destruct c. Qed.

(** ** The manager over any methods of the task *)

(** The manager's methods are the ones with the methods of the task left
    open, taken at the methods of [Task]. *)
Lemma run_is_run_with nows c (tasks : registry) :
  run nows c tasks = run_with (methods_at nows) (nows 0%nat) c tasks.
Proof. by destruct c. Qed.

Lemma guarded_write_written ok f id (tasks : registry) k t' :
  (guarded_write ok f id tasks).2 !! k = Some t'
  → tasks !! k = Some t'
    ∨ ∃ t, tasks !! id = Some t ∧ task_id (f t) = k ∧ t' = f t.
Proof.
  unfold guarded_write. destruct (tasks !! id) as [t|] eqn:E; [|by left].
  destruct (ok t); [|by left]. simpl.
  destruct (decide (task_id (f t) = k)) as [Hk|Hne].
  - rewrite <- Hk, lookup_insert_eq. intros [= <-]. right. eauto.
  - rewrite lookup_insert_ne by done. by left.
Qed.

Lemma start_task_with_shape M id (tasks : registry) :
  start_task_with M id tasks = guarded_write is_pending (m_start M) id tasks.
Proof.
  unfold start_task_with, guarded_write, _get_task, _update_task_no_lock,
    is_pending.
  destruct (tasks !! id) as [t|]; [|done]. by destruct (bool_decide _).
Qed.

Lemma complete_task_with_shape M id (tasks : registry) :
  complete_task_with M id tasks
  = guarded_write (λ t, negb (m_is_finished M t)) (m_complete M) id tasks.
Proof.
  unfold complete_task_with, guarded_write, _get_task, _update_task_no_lock.
  destruct (tasks !! id) as [t|]; [|done]. by destruct (m_is_finished M t).
Qed.

Lemma fail_task_with_shape M id msg (tasks : registry) :
  fail_task_with M id msg tasks
  = guarded_write (λ t, negb (m_is_finished M t)) (m_fail M msg) id tasks.
Proof.
  unfold fail_task_with, guarded_write, _get_task, _update_task_no_lock.
  destruct (tasks !! id) as [t|]; [|done]. by destruct (m_is_finished M t).
Qed.

Lemma cancel_task_with_shape M id (tasks : registry) :
  cancel_task_with M id tasks
  = guarded_write (λ t, negb (m_is_finished M t)) (m_cancel M 0%nat) id tasks.
Proof.
  unfold cancel_task_with, guarded_write, _get_task, _update_task_no_lock.
  destruct (tasks !! id) as [t|]; [|done]. by destruct (m_is_finished M t).
Qed.

(** Whatever the loop has stored was stored before it, or is what
    [task.cancel()] returned for a task of the snapshot, filed under the id
    that the method left on it. *)
Lemma cancel_loop_with_written M (l : list Task) (m : registry) n k t' :
  (foldl (cancel_step_with M) (m, n) l).1 !! k = Some t'
  → m !! k = Some t'
    ∨ ∃ t i, t ∈ l ∧ task_id (m_cancel M i t) = k ∧ t' = m_cancel M i t.
Proof.
  revert m n. induction l as [|t l IH]; intros m n; simpl; [by left|].
  unfold cancel_step_with at 2. simpl.
  destruct (m_is_finished M t); simpl; intros Hl.
  - destruct (IH _ _ Hl) as [?|(t0 & i & Hin & Hid & ->)]; [by left|].
    right. exists t0, i. split; [by right|done].
  - destruct (IH _ _ Hl) as [Hm|(t0 & i & Hin & Hid & ->)].
    + unfold _update_task_no_lock in Hm.
      destruct (decide (task_id (m_cancel M n t) = k)) as [Hk|Hne].
      * rewrite <- Hk, lookup_insert_eq in Hm. injection Hm as <-.
        right. exists t, n. split; [by left|done].
      * rewrite lookup_insert_ne in Hm by done. by left.
    + right. exists t0, i. split; [by right|done].
Qed.

(** A transition call, whatever the methods of the task are: what is stored
    afterwards was stored before, or is what the method of the task
    returned for a task stored before, filed under the id that the method
    left on it. *)
Lemma run_with_written M now c (tasks : registry) k t' :
  is_transition c = true →
  (run_with M now c tasks).2 !! k = Some t' →
  tasks !! k = Some t'
  ∨ ∃ t i k0, tasks !! k0 = Some t
      ∧ task_id (method_of M c i t) = k ∧ t' = method_of M c i t.
Proof.
  intros Hc.
  assert (∀ ok f id, (guarded_write ok f id tasks).2 !! k = Some t' →
            tasks !! k = Some t'
            ∨ ∃ t (i : nat) k0, tasks !! k0 = Some t
                ∧ task_id (f t) = k ∧ t' = f t) as Hgw.
  { intros ok f id Hl.
    destruct (guarded_write_written _ _ _ _ _ _ Hl) as [?|(t & Ht & Hid & ->)];
      [by left|right]. by exists t, 0%nat, id. }
  destruct c as [t0|id|id|id msg|id|conv]; [done|..];
    unfold run_with, prod_map; simpl.
  - rewrite start_task_with_shape. apply Hgw.
  - rewrite complete_task_with_shape. apply Hgw.
  - rewrite fail_task_with_shape. apply Hgw.
  - rewrite cancel_task_with_shape. apply Hgw.
  - intros Hl.
    destruct (cancel_loop_with_written _ _ _ _ _ _ Hl)
      as [?|(t & i & Hin & Hid & ->)]; [by left|right].
    apply list_elem_of_filter in Hin as [_ Hin].
    apply elem_of_values in Hin as [k0 Hk0]. by exists t, i, k0.
Qed.

(** ** The scenarios of the spec, run *)

(** T1 is recorded PENDING; it is started, cannot be started again, is
    completed, and cannot be completed again. *)
Example scenario_lifecycle :
  let s0 := update_task 1 T1 init in
  let r1 := start_task 2 "T1" s0 in
  let r2 := start_task 3 "T1" r1.2 in
  let r3 := complete_task 4 "T1" r2.2 in
  let r4 := complete_task 5 "T1" r3.2 in
  (r1.1, status_of "T1" r1.2) = (true, Some RUNNING)
  ∧ (r2.1, status_of "T1" r2.2) = (false, Some RUNNING)
  ∧ (r3.1, status_of "T1" r3.2) = (true, Some COMPLETED)
  ∧ (r4.1, status_of "T1" r4.2) = (false, Some COMPLETED).
Proof. vm_compute. done. Qed.

(** T2 is PENDING and T3 COMPLETED in "conv-2": the batch cancels one. *)
Example scenario_batch :
  let r := cancel_conversation_tasks (λ _, 9) "conv-2" scenario_store in
  (r.1, status_of "T2" r.2, status_of "T3" r.2, status_of "T1" r.2)
  = (1%nat, Some CANCELLED, Some COMPLETED, Some PENDING).
Proof. vm_compute. done. Qed.

(** * The claims *)

(** C1.  [complete_task], [fail_task] and [cancel_task] return [True]
    exactly when a task is stored under the id and its [is_finished()] is
    false, which is the case exactly for the statuses PENDING and RUNNING.
    When the guard refuses, the call returns [False] and the store is the one
    before the call.  When it accepts, on a well-keyed store, the store
    differs only at the id, where the record is the one the task's method
    returned, with status COMPLETED, FAILED or CANCELLED respectively. *)
Theorem finishing_transitions_spec now id msg (tasks : registry) :
  let accepted :=
    ∃ t, tasks !! id = Some t ∧ TaskHooks.is_finished t = false in
  ((complete_task now id tasks).1 = true ↔ accepted)
  ∧ ((fail_task now id msg tasks).1 = true ↔ accepted)
  ∧ ((cancel_task now id tasks).1 = true ↔ accepted)
  ∧ (accepted
     ↔ ∃ t, tasks !! id = Some t ∧ (status t = PENDING ∨ status t = RUNNING))
  ∧ (¬ accepted →
       complete_task now id tasks = (false, tasks)
       ∧ fail_task now id msg tasks = (false, tasks)
       ∧ cancel_task now id tasks = (false, tasks))
  ∧ (keyed_by_id tasks →
     ∀ t, tasks !! id = Some t → TaskHooks.is_finished t = false →
       complete_task now id tasks
         = (true, <[id := TaskHooks.complete now t]> tasks)
       ∧ fail_task now id msg tasks
         = (true, <[id := TaskHooks.fail now msg t]> tasks)
       ∧ cancel_task now id tasks
         = (true, <[id := TaskHooks.cancel now t]> tasks)
       ∧ status_of id (complete_task now id tasks).2 = Some COMPLETED
       ∧ status_of id (fail_task now id msg tasks).2 = Some FAILED
       ∧ status_of id (cancel_task now id tasks).2 = Some CANCELLED).
Proof.
  intros accepted. split_and!.
  - apply complete_task_true.
  - apply fail_task_true.
  - apply cancel_task_true.
  - unfold accepted. by setoid_rewrite not_finished_spec.
  - intros Hno.
    assert (∀ r : bool * registry, r.1 ≠ true → r.1 = false) as Hb
      by (intros [[] ?]; simpl; congruence).
    split_and!.
    + rewrite complete_task_shape. apply guarded_write_false.
      rewrite <- complete_task_shape. apply Hb.
      by rewrite complete_task_true.
    + rewrite fail_task_shape. apply guarded_write_false.
      rewrite <- fail_task_shape. apply Hb. by rewrite fail_task_true.
    + rewrite cancel_task_shape. apply guarded_write_false.
      rewrite <- cancel_task_shape. apply Hb. by rewrite cancel_task_true.
  - intros Hk t Ht Hunf.
    rewrite (complete_task_unfinished now id tasks t) by done.
    rewrite (fail_task_unfinished now id msg tasks t) by done.
    rewrite (cancel_task_unfinished now id tasks t) by done.
    simpl. by rewrite !status_of_insert.
Qed.

(** The guard refuses an id that is not stored, and accepts the PENDING task
    of the scenario. *)
Lemma finishing_transitions_witness :
  (complete_task 9 "T9" scenario_store = (false, scenario_store)
   ∧ fail_task 9 "T9" "boom" scenario_store = (false, scenario_store)
   ∧ cancel_task 9 "T9" scenario_store = (false, scenario_store))
  ∧ (status_of "T1" (complete_task 9 "T1" scenario_store).2 = Some COMPLETED
     ∧ status_of "T1" (fail_task 9 "T1" "boom" scenario_store).2 = Some FAILED
     ∧ status_of "T1" (cancel_task 9 "T1" scenario_store).2 = Some CANCELLED).
Proof.
  split.
  - apply (finishing_transitions_spec 9 "T9" "boom" scenario_store).
    intros (t & Ht & _). vm_compute in Ht. discriminate.
  - apply (finishing_transitions_spec 9 "T1" "boom" scenario_store)
      with (t := set_updated_at 1 T1).
    + apply (bool_decide_unpack _). vm_compute. exact I.
    + reflexivity.
    + reflexivity.
Defined.

(** C2.  [start_task] returns [True] exactly when a task is stored under the
    id with status PENDING.  A missing id and a status other than PENDING
    both give [False] and the store of before; no other outcome exists.
    When the guard accepts, on a well-keyed store, the store differs only at
    the id, where the status is RUNNING; a second call right after the first
    returns [False]. *)
Theorem start_task_spec now now' id (tasks : registry) :
  ((start_task now id tasks).1 = true
   ↔ ∃ t, tasks !! id = Some t ∧ status t = PENDING)
  ∧ (tasks !! id = None → start_task now id tasks = (false, tasks))
  ∧ (∀ t, tasks !! id = Some t → status t ≠ PENDING →
       start_task now id tasks = (false, tasks))
  ∧ (keyed_by_id tasks →
     (∀ t, tasks !! id = Some t → status t = PENDING →
        start_task now id tasks
          = (true, <[id := TaskHooks.start now t]> tasks)
        ∧ status_of id (start_task now id tasks).2 = Some RUNNING)
     ∧ start_task now' id (start_task now id tasks).2
       = (false, (start_task now id tasks).2)).
Proof.
  split_and!.
  - apply start_task_true.
  - apply start_task_absent.
  - intros t. apply start_task_not_pending.
  - intros Hk. split.
    + intros t Ht Hs. rewrite (start_task_pending now id tasks t) by done.
      simpl. by rewrite status_of_insert.
    + destruct (tasks !! id) as [t|] eqn:Ht.
      * destruct (decide (status t = PENDING)) as [Hs|Hs].
        -- rewrite (start_task_pending now id tasks t) by done. simpl.
           apply (start_task_not_pending _ _ _ (TaskHooks.start now t)).
           ++ apply lookup_insert_eq.
           ++ done.
        -- rewrite (start_task_not_pending now id tasks t) by done. simpl.
           by apply (start_task_not_pending _ _ _ t).
      * rewrite (start_task_absent now id tasks) by done. simpl.
        by apply start_task_absent.
Qed.

(** The scenario of the spec: T1 is started, and cannot be started again. *)
Lemma start_task_witness :
  (start_task 9 "T9" scenario_store = (false, scenario_store))
  ∧ (start_task 9 "T3" scenario_store = (false, scenario_store))
  ∧ (status_of "T1" (start_task 9 "T1" scenario_store).2 = Some RUNNING)
  ∧ (start_task 10 "T1" (start_task 9 "T1" scenario_store).2
     = (false, (start_task 9 "T1" scenario_store).2)).
Proof.
  pose proof (start_task_spec 9 10 "T9" scenario_store) as (_ & H9 & _).
  pose proof (start_task_spec 9 10 "T3" scenario_store) as (_ & _ & H3 & _).
  pose proof (start_task_spec 9 10 "T1" scenario_store) as (_ & _ & _ & H1).
  assert (keyed_by_id scenario_store) as Hk
    by (apply (bool_decide_unpack _); vm_compute; exact I).
  destruct (H1 Hk) as [Hrun Htwice].
  split_and!.
  - apply H9. reflexivity.
  - apply (H3 (set_updated_at 3 T3)); [reflexivity|discriminate].
  - apply (Hrun (set_updated_at 1 T1)); reflexivity.
  - exact Htwice.
Defined.

(** C3.  [cancel_conversation_tasks] returns the number of stored tasks of
    the conversation that are not finished when it is called; this holds for
    every store.  On a well-keyed store, each of those tasks is afterwards
    stored as [Task.cancel] left it, with status CANCELLED; a finished task
    of the conversation and every task of another conversation is stored
    exactly as before; no id is added; and so whatever is stored for the
    conversation afterwards is either a finished record stored unchanged or
    is CANCELLED. *)
Theorem cancel_conversation_tasks_spec now conv (tasks : registry) :
  let r := cancel_conversation_tasks now conv tasks in
  r.1 = size (filter (λ kt : string * Task,
                        TaskHooks.is_finished kt.2 = false
                        ∧ conversation_id kt.2 = conv) tasks)
  ∧ (keyed_by_id tasks →
     (∀ k t, tasks !! k = Some t → conversation_id t = conv →
        TaskHooks.is_finished t = false →
        ∃ i, (i < r.1)%nat ∧ r.2 !! k = Some (TaskHooks.cancel (now i) t)
             ∧ status_of k r.2 = Some CANCELLED)
     ∧ (∀ k t, tasks !! k = Some t → conversation_id t = conv →
          TaskHooks.is_finished t = true → r.2 !! k = Some t)
     ∧ (∀ k t, tasks !! k = Some t → conversation_id t ≠ conv →
          r.2 !! k = Some t)
     ∧ (∀ k, tasks !! k = None → r.2 !! k = None)
     ∧ (∀ k t', r.2 !! k = Some t' → conversation_id t' = conv →
          (tasks !! k = Some t' ∧ TaskHooks.is_finished t' = true)
          ∨ status t' = CANCELLED)).
Proof.
  intros r. split; [apply batch_count|]. intros Hk.
  assert (∀ k t, tasks !! k = Some t → conversation_id t = conv →
            TaskHooks.is_finished t = false →
            ∃ i, (i < r.1)%nat ∧ r.2 !! k = Some (TaskHooks.cancel (now i) t)
                 ∧ status_of k r.2 = Some CANCELLED) as Hhit.
  { intros k t Ht Hc Hunf.
    destruct (batch_unfinished now conv tasks Hk k t Ht Hc Hunf)
      as (i & Hi & Hl).
    exists i. split_and!; [done..|]. unfold status_of, r. by rewrite Hl. }
  assert (∀ k t, tasks !! k = Some t → conversation_id t = conv →
            TaskHooks.is_finished t = true → r.2 !! k = Some t) as Hfin.
  { intros k t Ht Hc Hf. unfold r. rewrite batch_kept; [done..|].
    intros t0 Ht0. by simplify_eq. }
  assert (∀ k t, tasks !! k = Some t → conversation_id t ≠ conv →
            r.2 !! k = Some t) as Hother.
  { intros k t Ht Hc. unfold r. rewrite batch_kept; [done..|].
    intros t0 Ht0 Hc0. by simplify_eq. }
  assert (∀ k, tasks !! k = None → r.2 !! k = None) as Hnone.
  { intros k Hnone. unfold r. rewrite batch_kept; [done..|].
    intros t0 Ht0. by simplify_eq. }
  split_and!; [done..|].
  intros k t' Ht' Hc'. destruct (tasks !! k) as [t|] eqn:Ht.
  - destruct (decide (conversation_id t = conv)) as [Hc|Hc].
    + destruct (TaskHooks.is_finished t) eqn:Hf.
      * left. rewrite (Hfin k t) in Ht' by done. by simplify_eq.
      * right. destruct (Hhit k t) as (i & _ & Hl & _); [done..|].
        rewrite Hl in Ht'. by simplify_eq.
    + rewrite (Hother k t) in Ht' by done. by simplify_eq.
  - rewrite Hnone in Ht' by done. done.
Qed.

(** The scenario of the spec: T2 is PENDING and T3 COMPLETED in "conv-2";
    the call returns 1, T2 is cancelled, T3 and T1 stay as they are. *)
Lemma cancel_conversation_tasks_witness :
  (cancel_conversation_tasks (λ _, 9) "conv-2" scenario_store).1 = 1%nat
  ∧ status_of "T2" (cancel_conversation_tasks (λ _, 9) "conv-2"
                      scenario_store).2 = Some CANCELLED
  ∧ (cancel_conversation_tasks (λ _, 9) "conv-2" scenario_store).2 !! "T3"
    = Some (set_updated_at 3 T3)
  ∧ (cancel_conversation_tasks (λ _, 9) "conv-2" scenario_store).2 !! "T1"
    = Some (set_updated_at 1 T1).
Proof.
  pose proof (cancel_conversation_tasks_spec (λ _, 9) "conv-2" scenario_store)
    as [Hcount Hrest].
  destruct Hrest as (Hhit & Hfin & Hother & _).
  { apply (bool_decide_unpack _). vm_compute. exact I. }
  split_and!.
  - rewrite Hcount. vm_compute. reflexivity.
  - destruct (Hhit "T2" (set_updated_at 2 T2)) as (i & _ & _ & Hs);
      [reflexivity..|exact Hs].
  - apply Hfin; reflexivity.
  - apply Hother; [reflexivity|discriminate].
Defined.

(** C4.  Once a task is COMPLETED, FAILED or CANCELLED, each of [start_task],
    [complete_task], [fail_task] and [cancel_task] called on its id returns
    [False] and leaves the store as it is; and on a well-keyed store no
    transition call whatever, for any id or conversation, changes its
    record.  (An [update_task] can overwrite it.) *)
Theorem terminal_status_sticky now nows msg id (tasks : registry) t :
  tasks !! id = Some t →
  status t = COMPLETED ∨ status t = FAILED ∨ status t = CANCELLED →
  start_task now id tasks = (false, tasks)
  ∧ complete_task now id tasks = (false, tasks)
  ∧ fail_task now id msg tasks = (false, tasks)
  ∧ cancel_task now id tasks = (false, tasks)
  ∧ (keyed_by_id tasks →
     ∀ c, is_transition c = true → (run nows c tasks).2 !! id = Some t).
Proof.
  intros Ht Hs. apply is_finished_spec in Hs as Hf.
  assert (start_task now id tasks = (false, tasks)) as H1
    by (apply (start_task_not_pending _ _ _ t);
        [done|by apply finished_not_pending]).
  split_and!; [done|by eapply complete_task_finished
              |by eapply fail_task_finished|by eapply cancel_task_finished|].
  intros Hk c Hc.
  assert (∀ ok f id', (∀ t0, task_id (f t0) = task_id t0) →
            (id' = id → guarded_write ok f id' tasks = (false, tasks)) →
            (guarded_write ok f id' tasks).2 !! id = Some t) as Hgw.
  { intros ok f id' Hf_id Hsame. destruct (decide (id' = id)) as [->|Hne].
    - by rewrite Hsame.
    - rewrite guarded_write_other; done. }
  rewrite run_store. destruct c as [t0|id'|id'|id' msg'|id'|conv]; [done|..].
  - rewrite start_task_shape. apply Hgw; [done|]. intros ->.
    rewrite <- start_task_shape.
    apply (start_task_not_pending _ _ _ t);
      [done|by apply finished_not_pending].
  - rewrite complete_task_shape. apply Hgw; [done|]. intros ->.
    rewrite <- complete_task_shape. by eapply complete_task_finished.
  - rewrite fail_task_shape. apply Hgw; [done|]. intros ->.
    rewrite <- fail_task_shape. by eapply fail_task_finished.
  - rewrite cancel_task_shape. apply Hgw; [done|]. intros ->.
    rewrite <- cancel_task_shape. by eapply cancel_task_finished.
  - rewrite batch_kept; [done..|]. intros t0 Ht0 _. by simplify_eq.
Qed.

(** T3 of the scenario is COMPLETED: nothing moves it. *)
Lemma terminal_status_sticky_witness :
  start_task 9 "T3" scenario_store = (false, scenario_store)
  ∧ complete_task 9 "T3" scenario_store = (false, scenario_store)
  ∧ fail_task 9 "T3" "boom" scenario_store = (false, scenario_store)
  ∧ cancel_task 9 "T3" scenario_store = (false, scenario_store)
  ∧ (run (λ _, 9) (CancelConversationTasks "conv-2") scenario_store).2 !! "T3"
    = Some (set_updated_at 3 T3).
Proof.
  pose proof (terminal_status_sticky 9 (λ _, 9) "boom" "T3" scenario_store
                (set_updated_at 3 T3) eq_refl (or_introl eq_refl))
    as (H1 & H2 & H3 & H4 & H5).
  split_and!; [done..|]. apply H5; [|reflexivity].
  apply (bool_decide_unpack _). vm_compute. exact I.
Defined.

(** C5.  [update_task] always stores: whatever the store held, a lookup of
    the id of the task afterwards finds the task with [updated_at] set to
    the clock reading of the call and every other field as given; a reading
    taken no earlier than the call started is no earlier than that time.
    What is stored under other ids is not touched. *)
Theorem update_task_spec now t (tasks : registry) :
  (∃ t', update_task now t tasks !! task_id t = Some t'
      ∧ task_id t' = task_id t
      ∧ updated_at t' = now
      ∧ (∀ call_time : Z, (call_time ≤ now)%Z → (call_time ≤ updated_at t')%Z)
      ∧ conversation_id t' = conversation_id t
      ∧ status t' = status t
      ∧ error_message t' = error_message t)
  ∧ (∀ k, k ≠ task_id t → update_task now t tasks !! k = tasks !! k).
Proof.
  split.
  - exists (set_updated_at now t). split_and!; try done.
    unfold update_task, _update_task_no_lock. simpl.
    apply lookup_insert_eq.
  - intros k Hne. unfold update_task, _update_task_no_lock. simpl.
    by apply lookup_insert_ne.
Qed.

(** Recording T1 at time 9 over the scenario, the call having started at
    time 5. *)
Lemma update_task_witness :
  ∃ t', update_task 9 T1 scenario_store !! "T1" = Some t'
      ∧ task_id t' = "T1" ∧ updated_at t' = 9 ∧ (5 ≤ updated_at t')%Z.
Proof.
  destruct (update_task_spec 9 T1 scenario_store)
    as [(t' & Hl & Hid & Hat & Hge & _) _].
  exists t'. split_and!; [exact Hl|exact Hid|exact Hat|].
  apply Hge. lia.
Defined.

(** C6.  The internal write path [_update_task_no_lock] stores the task as
    it is handed over, [updated_at] included, while [update_task] stores it
    with [updated_at] set to its own clock reading.  The transition methods
    are the ones written over any methods of the task, taken at the methods
    of [Task]; and whatever those methods are, after a transition call
    every stored record is either a record stored before the call, as it
    was, or exactly what the task's own method returned for a record stored
    before the call.  So when the methods of the task leave [updated_at]
    alone, a transition call leaves the [updated_at] under every id as it
    was: the manager adds no timestamp of its own, and a transition call
    does not depend on the clock reading that [update_task] takes. *)
Theorem updated_at_written_by_update_task_only :
  (∀ t (tasks : registry), _update_task_no_lock t tasks !! task_id t = Some t)
  ∧ (∀ now t (tasks : registry),
       ∃ t', update_task now t tasks !! task_id t = Some t'
             ∧ updated_at t' = now)
  ∧ (∀ nows c (tasks : registry) k t',
       is_transition c = true →
       (run nows c tasks).2 !! k = Some t' →
       tasks !! k = Some t'
       ∨ ∃ t i k0, tasks !! k0 = Some t ∧ t' = hook_of c (nows i) t)
  ∧ (∀ nows c (tasks : registry),
       run nows c tasks = run_with (methods_at nows) (nows 0%nat) c tasks)
  ∧ (∀ M now c (tasks : registry) k t',
       is_transition c = true →
       (run_with M now c tasks).2 !! k = Some t' →
       tasks !! k = Some t'
       ∨ ∃ t i k0, tasks !! k0 = Some t
           ∧ task_id (method_of M c i t) = k ∧ t' = method_of M c i t)
  ∧ (∀ M now c (tasks : registry) k t',
       is_transition c = true →
       keyed_by_id tasks →
       (∀ i t, task_id (method_of M c i t) = task_id t) →
       (∀ i t, updated_at (method_of M c i t) = updated_at t) →
       (run_with M now c tasks).2 !! k = Some t' →
       ∃ t, tasks !! k = Some t ∧ updated_at t' = updated_at t)
  ∧ (∀ M now now' c (tasks : registry),
       is_transition c = true →
       run_with M now c tasks = run_with M now' c tasks).
Proof.
  split_and!.
  - intros t tasks. apply lookup_insert_eq.
  - intros now t tasks. exists (set_updated_at now t). split; [|done].
    apply lookup_insert_eq.
  - intros nows c tasks k t' Hc. rewrite run_store.
    assert (∀ ok f id, (guarded_write ok f id tasks).2 !! k = Some t' →
              tasks !! k = Some t'
              ∨ ∃ t (i : nat) k0, tasks !! k0 = Some t ∧ t' = f t) as Hgw.
    { intros ok f id Hl.
      destruct (guarded_write_provenance _ _ _ _ _ _ Hl) as [?|(t & Ht & ->)];
        [by left|right]. by exists t, 0%nat, id. }
    destruct c as [t0|id|id|id msg|id|conv]; [done|..].
    + rewrite start_task_shape. intros Hl.
      destruct (Hgw _ _ _ Hl) as [?|(t & _ & k0 & ? & ->)]; [by left|right].
      by exists t, 0%nat, k0.
    + rewrite complete_task_shape. intros Hl.
      destruct (Hgw _ _ _ Hl) as [?|(t & _ & k0 & ? & ->)]; [by left|right].
      by exists t, 0%nat, k0.
    + rewrite fail_task_shape. intros Hl.
      destruct (Hgw _ _ _ Hl) as [?|(t & _ & k0 & ? & ->)]; [by left|right].
      by exists t, 0%nat, k0.
    + rewrite cancel_task_shape. intros Hl.
      destruct (Hgw _ _ _ Hl) as [?|(t & _ & k0 & ? & ->)]; [by left|right].
      by exists t, 0%nat, k0.
    + rewrite cancel_conversation_tasks_loop. simpl. intros Hl.
      destruct (cancel_loop_provenance _ _ _ _ _ _ Hl)
        as [?|(t & i & Hin & _ & ->)]; [by left|right].
      apply list_elem_of_filter in Hin as [_ Hin].
      apply elem_of_values in Hin as [k0 Hk0]. by exists t, i, k0.
  - apply run_is_run_with.
  - intros M now c tasks k t'. apply run_with_written.
  - intros M now c tasks k t' Hc Hk Hid Hat Hl.
    destruct (run_with_written M now c tasks k t' Hc Hl)
      as [Hold|(t & i & k0 & Ht & Hkey & ->)].
    + by exists t'.
    + exists t. split; [|apply Hat].
      rewrite <- Hkey, Hid. by rewrite (Hk _ _ Ht).
  - intros M now now' c tasks Hc. by destruct c.
Qed.

(** Starting T1 of the scenario stores what [Task.start] returned; and with
    methods that set the status only, the [updated_at] of T1 stays the 1
    that [update_task] gave it, while an [update_task] at time 77 makes it
    77. *)
Lemma updated_at_written_by_update_task_only_witness :
  (scenario_store !! "T1" = Some (TaskHooks.start 9 (set_updated_at 1 T1))
   ∨ ∃ t (i : nat) k0, scenario_store !! k0 = Some t
       ∧ TaskHooks.start 9 (set_updated_at 1 T1)
         = hook_of (StartTask "T1") 9 t)
  ∧ (∃ t, scenario_store !! "T1" = Some t
       ∧ updated_at (set_status RUNNING (set_updated_at 1 T1)) = updated_at t)
  ∧ updated_at <$> (run_with status_only_methods 77 (StartTask "T1")
                      scenario_store).2 !! "T1" = Some 1
  ∧ updated_at <$> (run_with status_only_methods 77 (UpdateTask T1)
                      scenario_store).2 !! "T1" = Some 77.
Proof.
  destruct updated_at_written_by_update_task_only
    as (_ & _ & Hold & _ & _ & Hkeep & _).
  split_and!.
  - apply (Hold (λ _, 9) (StartTask "T1") scenario_store "T1"); reflexivity.
  - apply (Hkeep status_only_methods 77 (StartTask "T1") scenario_store "T1").
    + reflexivity.
    + apply (bool_decide_unpack _). vm_compute. exact I.
    + intros i t. reflexivity.
    + intros i t. reflexivity.
    + reflexivity.
  - reflexivity.
  - reflexivity.
Defined.

(** C7.  The methods are total: each call returns a value and a store, there
    is no exceptional outcome ([_get_task] uses [dict.get], which yields
    [None] for an unknown id, and the guards return early).  A single-task
    transition returns [False] exactly when the id is unknown or the task is
    in the wrong state, and in both cases the result is the same [False]
    with the store of before.  The batch cancellation returns 0, with the
    store of before, exactly when the conversation has no unfinished task,
    be it that it has no task at all. *)
Theorem refusals_are_plain_results now nows id msg conv (tasks : registry) :
  let unknown := tasks !! id = None in
  let not_pending := ∃ t, tasks !! id = Some t ∧ status t ≠ PENDING in
  let finished :=
    ∃ t, tasks !! id = Some t ∧ TaskHooks.is_finished t = true in
  ((start_task now id tasks).1 = false ↔ unknown ∨ not_pending)
  ∧ ((complete_task now id tasks).1 = false ↔ unknown ∨ finished)
  ∧ ((fail_task now id msg tasks).1 = false ↔ unknown ∨ finished)
  ∧ ((cancel_task now id tasks).1 = false ↔ unknown ∨ finished)
  ∧ (unknown ∨ not_pending → start_task now id tasks = (false, tasks))
  ∧ (unknown ∨ finished →
       complete_task now id tasks = (false, tasks)
       ∧ fail_task now id msg tasks = (false, tasks)
       ∧ cancel_task now id tasks = (false, tasks))
  ∧ ((cancel_conversation_tasks nows conv tasks).1 = 0%nat
     ↔ ∀ k t, tasks !! k = Some t → conversation_id t = conv →
              TaskHooks.is_finished t = true)
  ∧ ((cancel_conversation_tasks nows conv tasks).1 = 0%nat →
       cancel_conversation_tasks nows conv tasks = (0%nat, tasks)).
Proof.
  intros unknown not_pending finished.
  assert ((start_task now id tasks).1 = false ↔ unknown ∨ not_pending) as Hs
    by (rewrite fst_not_true, start_task_true; apply not_stored_pending).
  assert ((complete_task now id tasks).1 = false ↔ unknown ∨ finished) as Hc
    by (rewrite fst_not_true, complete_task_true; apply not_stored_unfinished).
  assert ((fail_task now id msg tasks).1 = false ↔ unknown ∨ finished) as Hf
    by (rewrite fst_not_true, fail_task_true; apply not_stored_unfinished).
  assert ((cancel_task now id tasks).1 = false ↔ unknown ∨ finished) as Hx
    by (rewrite fst_not_true, cancel_task_true; apply not_stored_unfinished).
  split_and!; try done.
  - intros H. apply Hs in H. rewrite start_task_shape in H |- *.
    by apply guarded_write_false.
  - intros H. split_and!.
    + apply Hc in H. rewrite complete_task_shape in H |- *.
      by apply guarded_write_false.
    + apply Hf in H. rewrite fail_task_shape in H |- *.
      by apply guarded_write_false.
    + apply Hx in H. rewrite cancel_task_shape in H |- *.
      by apply guarded_write_false.
  - apply batch_count_zero.
  - intros H. apply batch_nothing_to_cancel.
    by apply (proj1 (batch_count_zero nows conv tasks)).
Qed.

(** An unknown id and a task in the wrong state give the same answer; a
    conversation without tasks gives 0. *)
Lemma refusals_are_plain_results_witness :
  (start_task 9 "T9" scenario_store = (false, scenario_store)
   ∧ complete_task 9 "T9" scenario_store = (false, scenario_store))
  ∧ (start_task 9 "T3" scenario_store = (false, scenario_store)
     ∧ complete_task 9 "T3" scenario_store = (false, scenario_store))
  ∧ cancel_conversation_tasks (λ _, 9) "conv-9" scenario_store
    = (0%nat, scenario_store).
Proof.
  pose proof (refusals_are_plain_results 9 (λ _, 9) "T9" "boom" "conv-9"
                scenario_store) as (_ & _ & _ & _ & Hs9 & Hc9 & _ & Hb).
  pose proof (refusals_are_plain_results 9 (λ _, 9) "T3" "boom" "conv-9"
                scenario_store) as (_ & _ & _ & _ & Hs3 & Hc3 & _).
  split_and!.
  - apply Hs9. left. reflexivity.
  - apply Hc9. left. reflexivity.
  - apply Hs3. right. exists (set_updated_at 3 T3). split; [reflexivity|done].
  - apply Hc3. right. exists (set_updated_at 3 T3). split; reflexivity.
  - apply Hb. vm_compute. reflexivity.
Defined.

(** C9.  No call removes an id from the store.  On a well-keyed store a
    transition call leaves the set of stored ids as it is; [update_task]
    adds the id of its task, and nothing else. *)
Theorem key_set_preserved nows c (tasks : registry) :
  dom tasks ⊆ dom (run nows c tasks).2
  ∧ (keyed_by_id tasks → is_transition c = true →
       dom (run nows c tasks).2 = dom tasks)
  ∧ (∀ t, c = UpdateTask t →
       dom (run nows c tasks).2 = {[task_id t]} ∪ dom tasks).
Proof.
  rewrite run_store. split_and!.
  - destruct c as [t0|id|id|id msg|id|conv].
    + apply dom_insert_subseteq.
    + rewrite start_task_shape. apply guarded_write_dom_subseteq.
    + rewrite complete_task_shape. apply guarded_write_dom_subseteq.
    + rewrite fail_task_shape. apply guarded_write_dom_subseteq.
    + rewrite cancel_task_shape. apply guarded_write_dom_subseteq.
    + rewrite cancel_conversation_tasks_loop. simpl.
      apply cancel_loop_dom_subseteq.
  - intros Hk Hc. destruct c as [t0|id|id|id msg|id|conv]; [done|..].
    + rewrite start_task_shape. by apply guarded_write_dom.
    + rewrite complete_task_shape. by apply guarded_write_dom.
    + rewrite fail_task_shape. by apply guarded_write_dom.
    + rewrite cancel_task_shape. by apply guarded_write_dom.
    + by apply batch_dom.
  - intros t ->. unfold update_task, _update_task_no_lock. simpl.
    apply dom_insert_L.
Qed.

(** Cancelling "conv-2" in the scenario keeps the three ids; recording a
    fourth task adds its id. *)
Lemma key_set_preserved_witness :
  dom (run (λ _, 9) (CancelConversationTasks "conv-2") scenario_store).2
  = dom scenario_store
  ∧ dom (run (λ _, 9) (UpdateTask (mkTask "T4" "conv-1" PENDING 0 None))
           scenario_store).2
    = {["T4"]} ∪ dom scenario_store.
Proof.
  split.
  - apply (key_set_preserved (λ _, 9) (CancelConversationTasks "conv-2")
             scenario_store); [|reflexivity].
    apply (bool_decide_unpack _). vm_compute. exact I.
  - destruct (key_set_preserved (λ _, 9)
                (UpdateTask (mkTask "T4" "conv-1" PENDING 0 None))
                scenario_store) as (_ & _ & Hadd).
    apply (Hadd (mkTask "T4" "conv-1" PENDING 0 None)). reflexivity.
Defined.

(** C10.  On a well-keyed store, a second [cancel_conversation_tasks] for
    the same conversation, called right after the first, returns 0 and
    leaves the store, and so every status, as the first call left it. *)
Theorem cancel_conversation_tasks_idempotent now now' conv
    (tasks : registry) :
  keyed_by_id tasks →
  let after := (cancel_conversation_tasks now conv tasks).2 in
  (∀ k t, after !! k = Some t → conversation_id t = conv →
          TaskHooks.is_finished t = true)
  ∧ cancel_conversation_tasks now' conv after = (0%nat, after).
Proof.
  intros Hk after.
  assert (∀ k t, after !! k = Some t → conversation_id t = conv →
                 TaskHooks.is_finished t = true) as Hfin
    by (intros k t; by apply batch_leaves_finished).
  split; [done|]. by apply batch_nothing_to_cancel.
Qed.

(** The scenario: the first call cancels T2, the second finds nothing. *)
Lemma cancel_conversation_tasks_idempotent_witness :
  cancel_conversation_tasks (λ _, 10) "conv-2"
    (cancel_conversation_tasks (λ _, 9) "conv-2" scenario_store).2
  = (0%nat, (cancel_conversation_tasks (λ _, 9) "conv-2" scenario_store).2).
Proof.
  apply (cancel_conversation_tasks_idempotent (λ _, 9) (λ _, 10) "conv-2"
           scenario_store).
  apply (bool_decide_unpack _). vm_compute. exact I.
Defined.

(** ** Moves of the coroutines *)

Lemma step_at_inv i w w' :
  step_at i w = Some w' →
  ∃ co, w_pool w !! i = Some co
    ∧ ((its_position co = Waiting ∧ w_locked w = false
        ∧ w' = mkWorld (w_tasks w) true
                 (<[i := move_to Entered co]> (w_pool w))
                 (w_acquired w ++ [i]))
       ∨ (∃ r, its_position co = Leaving r
            ∧ w' = mkWorld (w_tasks w) false
                     (<[i := move_to (Returned r) co]> (w_pool w))
                     (w_acquired w))
       ∨ (∃ tasks p, inside co = true
            ∧ body_move co (w_tasks w) = Some (tasks, p)
            ∧ w' = mkWorld tasks (w_locked w)
                     (<[i := move_to p co]> (w_pool w)) (w_acquired w))).
Proof.
  unfold step_at. destruct (w_pool w !! i) as [co|] eqn:Hco; [|done].
  intros Hstep. exists co. split; [done|].
  unfold inside. destruct (its_position co) as [| |rest n|r|r] eqn:Hpos.
  - destruct (w_locked w); [done|]. left. by simplify_eq.
  - destruct (body_move co (w_tasks w)) as [[tasks p]|]; [|done].
    right. right. exists tasks, p. by simplify_eq.
  - destruct (body_move co (w_tasks w)) as [[tasks p]|]; [|done].
    right. right. exists tasks, p. by simplify_eq.
  - right. left. exists r. by simplify_eq.
  - done.
Qed.

Section pool_update.
Context (pool : list coroutine) (i : nat) (co : coroutine) (p : position).
Hypothesis Hco : pool !! i = Some co.

Lemma pool_update_eq : <[i := move_to p co]> pool !! i = Some (move_to p co).
Proof. apply list_lookup_insert_eq. apply lookup_lt_is_Some. eauto. Qed.

Lemma pool_update_ne j : j ≠ i → <[i := move_to p co]> pool !! j = pool !! j.
Proof. intros Hne. by apply list_lookup_insert_ne. Qed.

Lemma pool_update_calls : calls_of (<[i := move_to p co]> pool) = calls_of pool.
Proof.
  unfold calls_of. rewrite list_fmap_insert. simpl.
  apply list_insert_id. by rewrite list_lookup_fmap, Hco.
Qed.

Lemma pool_update_lookup j co' :
  <[i := move_to p co]> pool !! j = Some co'
  ↔ (j = i ∧ co' = move_to p co) ∨ (j ≠ i ∧ pool !! j = Some co').
Proof.
  destruct (decide (j = i)) as [->|Hne].
  - rewrite pool_update_eq. split.
    + intros [= <-]. by left.
    + by intros [[_ ->]|[? _]].
  - rewrite pool_update_ne by done. split.
    + intros ?. by right.
    + by intros [[? _]|[_ ?]].
Qed.
End pool_update.

Lemma serial_snoc calls tasks order i :
  serial calls tasks (order ++ [i])
  = serial_step calls (serial calls tasks order) i.
Proof. unfold serial. by rewrite foldl_app. Qed.

Lemma calls_of_lookup pool i co :
  pool !! i = Some co → calls_of pool !! i = Some (its_call co, its_clock co).
Proof. intros H. unfold calls_of. by rewrite list_lookup_fmap, H. Qed.

(** A move of the body keeps the holder on track, and inside. *)
Lemma body_move_on_track found tasks co tasks' p :
  holder_on_track found tasks co →
  body_move co tasks = Some (tasks', p) →
  holder_on_track found tasks' (move_to p co) ∧ inside (move_to p co) = true.
Proof.
  unfold holder_on_track, body_move, inside.
  destruct co as [c clock pos]. simpl.
  destruct pos as [| |[|t rest] n|r|r]; try done.
  - intros ->.
    destruct c as [t0|id|id|id msg|id|conv]; intros [= <- <-];
      (split; [|done]); simpl.
    + done.
    + by destruct (start_task _ _ _).
    + by destruct (complete_task _ _ _).
    + by destruct (fail_task _ _ _ _).
    + by destruct (cancel_task _ _ _).
    + by exists conv.
  - intros (conv & -> & Hloop) [= <- <-]. split; [|done].
    rewrite cancel_loop_nil in Hloop. unfold run, prod_map.
    by rewrite cancel_conversation_tasks_loop, <- Hloop.
  - intros (conv & -> & Hloop) [= <- <-]. split; [|done].
    exists conv. split; [done|]. rewrite <- Hloop.
    unfold cancel_loop. simpl. by rewrite <- surjective_pairing.
Qed.

(** ** The invariant *)

Lemma calls_of_spawn calls : calls_of (spawn calls) = calls.
Proof.
  unfold calls_of, spawn. rewrite <- list_fmap_compose.
  rewrite <- (list_fmap_id calls) at 2.
  apply Forall_fmap_ext_1, Forall_forall. by intros [c clock] _.
Qed.

Lemma spawn_lookup calls i co :
  spawn calls !! i = Some co → its_position co = Waiting.
Proof.
  unfold spawn. rewrite list_lookup_fmap.
  destruct (calls !! i); simpl; [|done]. by intros [= <-].
Qed.

Lemma consistent_starting calls tasks0 :
  consistent calls tasks0 (starting tasks0 calls).
Proof.
  split; simpl.
  - apply calls_of_spawn.
  - apply NoDup_nil_2.
  - intros i. split.
    + intros Hin. by apply elem_of_nil in Hin.
    + intros (co & Hco & Hpos). by apply spawn_lookup in Hco.
  - intros _. split_and!; [|done|].
    + intros i co Hco. apply spawn_lookup in Hco. unfold inside. by rewrite Hco.
    + intros i co r Hco Hpos. apply spawn_lookup in Hco. congruence.
  - done.
Qed.

Lemma inside_not_waiting co : inside co = true → its_position co ≠ Waiting.
Proof. unfold inside. by destruct (its_position co). Qed.

Lemma inside_not_returned co r :
  inside co = true → its_position co ≠ Returned r.
Proof. unfold inside. by destruct (its_position co). Qed.

(** A coroutine that is inside holds the lock, it took it last, and no other
    coroutine is inside. *)
Lemma holder_inv calls tasks0 w i co :
  consistent calls tasks0 w → w_pool w !! i = Some co → inside co = true →
  ∃ prev : list nat,
    w_locked w = true
    ∧ w_acquired w = (prev ++ [i])%list
    ∧ (∀ j co', j ≠ i → w_pool w !! j = Some co' → inside co' = false)
    ∧ holder_on_track (serial calls tasks0 prev).1 (w_tasks w) co
    ∧ (∀ j co' r, w_pool w !! j = Some co' → its_position co' = Returned r →
         (serial calls tasks0 prev).2 !! j = Some r).
Proof.
  intros Hcons Hco Hin. destruct (w_locked w) eqn:Hl.
  - destruct (cons_locked _ _ _ Hcons Hl)
      as (prev & h & coh & Hacq & Hcoh & Hothers & Htrack & Hres).
    destruct (decide (i = h)) as [->|Hne].
    + assert (coh = co) as -> by congruence. by exists prev.
    + rewrite (Hothers i co Hne Hco) in Hin. done.
  - destruct (cons_unlocked _ _ _ Hcons Hl) as (Hnone & _).
    rewrite (Hnone i co Hco) in Hin. done.
Qed.

Lemma consistent_step calls tasks0 i w w' :
  consistent calls tasks0 w → step_at i w = Some w' →
  consistent calls tasks0 w'.
Proof.
  intros Hcons Hstep.
  destruct (step_at_inv _ _ _ Hstep) as (co & Hco & Hcase).
  pose proof (cons_calls _ _ _ Hcons) as Hcalls.
  pose proof (cons_nodup _ _ _ Hcons) as Hnodup.
  pose proof (cons_acquired _ _ _ Hcons) as Hacq.
  destruct Hcase as [(Hpos & Hl & ->)
                    |[(r & Hpos & ->)|(tasks & p & Hin & Hbody & ->)]].
  - (* the coroutine takes the lock *)
    destruct (cons_unlocked _ _ _ Hcons Hl) as (Hnone & Htasks & Hres).
    assert (i ∉ w_acquired w) as Hfresh.
    { intros Hi. apply Hacq in Hi as (co' & Hco' & Hpos'). congruence. }
    split; simpl.
    + by rewrite pool_update_calls.
    + apply NoDup_app. split_and!; [done| |apply NoDup_singleton].
      intros j Hj Hji. apply list_elem_of_singleton in Hji. by subst.
    + intros j. rewrite elem_of_app, list_elem_of_singleton, Hacq.
      setoid_rewrite (pool_update_lookup _ _ _ _ Hco). split.
      * intros [(co' & Hco' & Hpos')| ->].
        -- exists co'. split; [|done]. right. split; [|done].
           intros ->. congruence.
        -- exists (move_to Entered co). split; [by left|done].
      * intros (co' & [[-> ->]|[Hne Hco']] & Hpos'); [by right|left; eauto].
    + done.
    + intros _. exists (w_acquired w), i, (move_to Entered co).
      split_and!; [done|by apply pool_update_eq| | |].
      * intros j co' Hne. rewrite pool_update_ne by done. apply Hnone.
      * done.
      * intros j co' r'. rewrite (pool_update_lookup _ _ _ _ Hco).
        intros [[-> ->]|[Hne Hco']]; [done|]. by apply Hres.
  - (* the coroutine gives the lock back *)
    assert (inside co = true) as Hin by (unfold inside; by rewrite Hpos).
    destruct (holder_inv _ _ _ _ _ Hcons Hco Hin)
      as (prev & Hl & Hacqd & Hothers & Htrack & Hres).
    unfold holder_on_track in Htrack. rewrite Hpos in Htrack.
    split; simpl.
    + by rewrite pool_update_calls.
    + done.
    + intros j. rewrite Hacq.
      setoid_rewrite (pool_update_lookup _ _ _ _ Hco). split.
      * intros (co' & Hco' & Hpos').
        destruct (decide (j = i)) as [->|Hne].
        -- exists (move_to (Returned r) co). split; [by left|done].
        -- exists co'. split; [by right|done].
      * intros (co' & [[-> ->]|[Hne Hco']] & Hpos'); [|eauto].
        exists co. split; [done|]. by apply inside_not_waiting.
    + intros _.
      assert (serial calls tasks0 (w_acquired w)
              = (w_tasks w, <[i := r]> (serial calls tasks0 prev).2)) as Hser.
      { rewrite Hacqd, serial_snoc. unfold serial_step.
        rewrite <- Hcalls, (calls_of_lookup _ _ _ Hco). simpl.
        rewrite Hcalls. by rewrite Htrack. }
      rewrite Hser. simpl. split_and!; [|done|].
      * intros j co'. rewrite (pool_update_lookup _ _ _ _ Hco).
        intros [[-> ->]|[Hne Hco']]; [done|]. by eapply Hothers.
      * intros j co' r'. rewrite (pool_update_lookup _ _ _ _ Hco).
        intros [[-> ->]|[Hne Hco']]; simpl.
        -- intros [= ->]. apply lookup_insert_eq.
        -- intros Hpos'. rewrite lookup_insert_ne by done. by eapply Hres.
    + done.
  - (* the coroutine makes a move of its body *)
    destruct (holder_inv _ _ _ _ _ Hcons Hco Hin)
      as (prev & Hl & Hacqd & Hothers & Htrack & Hres).
    destruct (body_move_on_track _ _ _ _ _ Htrack Hbody) as [Htrack' Hin'].
    split; simpl.
    + by rewrite pool_update_calls.
    + done.
    + intros j. rewrite Hacq.
      setoid_rewrite (pool_update_lookup _ _ _ _ Hco). split.
      * intros (co' & Hco' & Hpos').
        destruct (decide (j = i)) as [->|Hne].
        -- exists (move_to p co). split; [by left|].
           by apply inside_not_waiting.
        -- exists co'. split; [by right|done].
      * intros (co' & [[-> ->]|[Hne Hco']] & Hpos'); [|eauto].
        exists co. split; [done|]. by apply inside_not_waiting.
    + rewrite Hl. done.
    + intros _. exists prev, i, (move_to p co).
      split_and!; [done|by apply pool_update_eq| |done|].
      * intros j co' Hne. rewrite pool_update_ne by done. by apply Hothers.
      * intros j co' r'. rewrite (pool_update_lookup _ _ _ _ Hco).
        intros [[-> ->]|[Hne Hco']].
        -- intros Hpos'. by apply inside_not_returned in Hpos'.
        -- by apply Hres.
Qed.

Lemma consistent_run_schedule calls tasks0 schedule w w' :
  consistent calls tasks0 w → run_schedule schedule w = Some w' →
  consistent calls tasks0 w'.
Proof.
  revert w. induction schedule as [|i schedule IH]; intros w Hcons; simpl.
  - by intros [= <-].
  - destruct (step_at i w) as [w1|] eqn:Hstep; [|done].
    apply IH. by eapply consistent_step.
Qed.

(** ** Every schedule can be carried on until all calls have returned *)

Lemma sum_list_insert (l : list nat) i x y :
  l !! i = Some x → (sum_list (<[i := y]> l) + x = sum_list l + y)%nat.
Proof.
  revert i. induction l as [|a l IH]; intros [|i] Hl; simplify_eq/=.
  - lia.
  - specialize (IH i Hl). lia.
Qed.

Lemma measure_insert (f : coroutine → nat) pool i co co' :
  pool !! i = Some co →
  (sum_list (f <$> <[i := co']> pool) + f co
   = sum_list (f <$> pool) + f co')%nat.
Proof.
  intros Hco. rewrite list_fmap_insert. apply sum_list_insert.
  by rewrite list_lookup_fmap, Hco.
Qed.

Lemma body_move_lowers co tasks tasks' p :
  body_move co tasks = Some (tasks', p) →
  (stage (move_to p co) < stage co)%nat
  ∨ (stage (move_to p co) = stage co
     ∧ (turns_left (move_to p co) < turns_left co)%nat).
Proof.
  unfold body_move, stage, turns_left. destruct co as [c clock pos]. simpl.
  destruct pos as [| |[|t rest] n|r|r]; try done.
  - destruct c; intros [= <- <-]; left; lia.
  - intros [= <- <-]. right. simpl. lia.
  - intros [= <- <-]. right. simpl. lia.
Qed.

Lemma step_at_lowers i w w' :
  step_at i w = Some w' →
  (stages w' < stages w)%nat
  ∨ (stages w' = stages w ∧ (turns w' < turns w)%nat).
Proof.
  intros Hstep. destruct (step_at_inv _ _ _ Hstep) as (co & Hco & Hcase).
  unfold stages, turns.
  destruct Hcase as [(Hpos & Hl & ->)
                    |[(r & Hpos & ->)|(tasks & p & Hin & Hbody & ->)]]; simpl.
  - left. pose proof (measure_insert stage _ _ _ (move_to Entered co) Hco) as H.
    assert (stage co = 3%nat) as Hs by (unfold stage; by rewrite Hpos).
    assert (stage (move_to Entered co) = 2%nat) as Hs' by done.
    lia.
  - left.
    pose proof (measure_insert stage _ _ _ (move_to (Returned r) co) Hco) as H.
    assert (stage co = 1%nat) as Hs by (unfold stage; by rewrite Hpos).
    assert (stage (move_to (Returned r) co) = 0%nat) as Hs' by done.
    lia.
  - pose proof (measure_insert stage _ _ _ (move_to p co) Hco) as H1.
    pose proof (measure_insert turns_left _ _ _ (move_to p co) Hco) as H2.
    destruct (body_move_lowers _ _ _ _ Hbody) as [?|[? ?]]; [left|right]; lia.
Qed.

Lemma forallb_false_lookup {A} (f : A → bool) (l : list A) :
  forallb f l = false → ∃ i x, l !! i = Some x ∧ f x = false.
Proof.
  induction l as [|a l IH]; simpl; [done|].
  destruct (f a) eqn:Ha; simpl.
  - intros H. destruct (IH H) as (i & x & Hi & Hx). by exists (S i), x.
  - intros _. by exists 0%nat, a.
Qed.

Lemma forallb_true_lookup {A} (f : A → bool) (l : list A) i x :
  forallb f l = true → l !! i = Some x → f x = true.
Proof.
  revert i. induction l as [|a l IH]; intros [|i]; simpl; try done.
  - intros H [= <-]. by apply andb_prop in H as [? _].
  - intros H. apply andb_prop in H as [_ H]. by apply IH.
Qed.

(** Who is inside can move. *)
Lemma inside_can_move w i co :
  w_pool w !! i = Some co → inside co = true → ∃ w', step_at i w = Some w'.
Proof.
  intros Hco Hin. unfold step_at. rewrite Hco. unfold inside in Hin.
  unfold body_move.
  destruct (its_position co) as [| |[|t rest] n|r|r]; try done; eauto.
  destruct (its_call co); eauto.
Qed.

(** While the lock is taken, nobody but the holder can move. *)
Lemma outside_cannot_move w j co :
  w_locked w = true → w_pool w !! j = Some co → inside co = false →
  step_at j w = None.
Proof.
  intros Hl Hco Hin. unfold step_at. rewrite Hco, Hl. unfold inside in Hin.
  by destruct (its_position co).
Qed.

Lemma progress calls tasks0 w :
  consistent calls tasks0 w → all_returned w = false →
  ∃ i w', step_at i w = Some w'.
Proof.
  intros Hcons Hall. destruct (w_locked w) eqn:Hl.
  - destruct (cons_locked _ _ _ Hcons Hl)
      as (prev & h & co & _ & Hco & _ & Htrack & _).
    exists h. apply (inside_can_move _ _ co); [done|].
    unfold holder_on_track in Htrack. unfold inside.
    by destruct (its_position co).
  - destruct (forallb_false_lookup _ _ Hall) as (i & co & Hco & Hret).
    destruct (cons_unlocked _ _ _ Hcons Hl) as (Hnone & _).
    specialize (Hnone i co Hco). exists i. unfold step_at. rewrite Hco, Hl.
    unfold inside in Hnone. unfold has_returned in Hret.
    destruct (its_position co); try done. eauto.
Qed.

Lemma can_finish calls tasks0 w :
  consistent calls tasks0 w →
  ∃ schedule w', run_schedule schedule w = Some w' ∧ all_returned w' = true.
Proof.
  remember (stages w) as a eqn:Ha. revert w Ha.
  induction a as [a IHa] using lt_wf_ind. intros w Ha.
  remember (turns w) as b eqn:Hb. revert w Ha Hb.
  induction b as [b IHb] using lt_wf_ind. intros w Ha Hb Hcons.
  destruct (all_returned w) eqn:Hall.
  - by exists [], w.
  - destruct (progress _ _ _ Hcons Hall) as (i & w1 & Hstep).
    pose proof (consistent_step _ _ _ _ _ Hcons Hstep) as Hcons1.
    assert (∃ schedule w', run_schedule schedule w1 = Some w'
                           ∧ all_returned w' = true)
      as (schedule & w' & Hrun & Hdone).
    { destruct (step_at_lowers _ _ _ Hstep) as [Hlt|[Heq Hlt]].
      - apply (IHa (stages w1)); [lia|done..].
      - apply (IHb (turns w1)); [lia|lia|done..]. }
    exists (i :: schedule), w'. simpl. by rewrite Hstep.
Qed.

(** C8.  Calls made at once, their coroutines scheduled in any way, on worlds
    reached from the start by any schedule:
    - a coroutine that is inside its method holds the lock, was the last to
      take it, and no other coroutine can move before it leaves;
    - in the middle of the scan of [cancel_conversation_tasks] the turns
      that are left take the store to where the whole method takes the store
      that the coroutine found when it took the lock: nothing came between;
    - the schedule can be carried on until every call has returned;
    - once every call has returned, each coroutine took the lock exactly
      once, the store is the one that the calls give when made one after the
      other in the order in which the lock was taken, and each call returned
      what it returns in that serial run. *)
Theorem lock_serializes_calls calls tasks0 schedule w :
  run_schedule schedule (starting tasks0 calls) = Some w →
  (∀ i co, w_pool w !! i = Some co → inside co = true →
     w_locked w = true
     ∧ (∃ prev : list nat, w_acquired w = (prev ++ [i])%list)
     ∧ (∀ j, j ≠ i → step_at j w = None))
  ∧ (∀ i co rest n,
       w_pool w !! i = Some co → its_position co = Scanning rest n →
       ∃ (prev : list nat) conv,
         w_acquired w = (prev ++ [i])%list
         ∧ its_call co = CancelConversationTasks conv
         ∧ cancel_loop (its_clock co) (w_tasks w) n rest
           = cancel_loop (its_clock co) (serial calls tasks0 prev).1 0
               (filter (λ t, conversation_id t = conv)
                  (values (serial calls tasks0 prev).1)))
  ∧ (∃ schedule' w',
       run_schedule schedule' w = Some w' ∧ all_returned w' = true)
  ∧ (all_returned w = true →
       w_acquired w ≡ₚ seq 0 (length calls)
       ∧ w_tasks w = (serial calls tasks0 (w_acquired w)).1
       ∧ ∀ i co, w_pool w !! i = Some co →
           calls !! i = Some (its_call co, its_clock co)
           ∧ is_Some (returned_value co)
           ∧ returned_value co
             = (serial calls tasks0 (w_acquired w)).2 !! i).
Proof.
  intros Hrun.
  assert (consistent calls tasks0 w) as Hcons
    by (eapply consistent_run_schedule; [apply consistent_starting|done]).
  split_and!.
  - intros i co Hco Hin.
    destruct (holder_inv _ _ _ _ _ Hcons Hco Hin)
      as (prev & Hl & Hacq & Hothers & _).
    split_and!; [done|by exists prev|].
    intros j Hne. destruct (w_pool w !! j) as [co'|] eqn:Hco'.
    + apply (outside_cannot_move _ _ co'); [done..|]. by apply (Hothers j).
    + unfold step_at. by rewrite Hco'.
  - intros i co rest n Hco Hpos.
    assert (inside co = true) as Hin by (unfold inside; by rewrite Hpos).
    destruct (holder_inv _ _ _ _ _ Hcons Hco Hin)
      as (prev & _ & Hacq & _ & Htrack & _).
    unfold holder_on_track in Htrack. rewrite Hpos in Htrack.
    destruct Htrack as (conv & Hcall & Hloop). by exists prev, conv.
  - by eapply can_finish.
  - intros Hall.
    assert (w_locked w = false) as Hl.
    { destruct (w_locked w) eqn:Hl; [|done].
      destruct (cons_locked _ _ _ Hcons Hl)
        as (prev & h & co & _ & Hco & _ & Htrack & _).
      pose proof (forallb_true_lookup _ _ _ _ Hall Hco) as Hret.
      unfold holder_on_track in Htrack. unfold has_returned in Hret.
      by destruct (its_position co). }
    destruct (cons_unlocked _ _ _ Hcons Hl) as (_ & Htasks & Hres).
    pose proof (cons_calls _ _ _ Hcons) as Hcalls.
    split_and!; [|done|].
    + apply NoDup_Permutation;
        [apply (cons_nodup _ _ _ Hcons)|apply NoDup_seq|].
      intros i. rewrite (cons_acquired _ _ _ Hcons), (elem_of_seq 0).
      rewrite <- Hcalls. unfold calls_of. rewrite length_fmap. split.
      * intros (co & Hco & _). apply lookup_lt_Some in Hco. lia.
      * intros [_ Hlt]. destruct (lookup_lt_is_Some_2 (w_pool w) i) as [co Hco];
          [lia|].
        exists co. split; [done|].
        pose proof (forallb_true_lookup _ _ _ _ Hall Hco) as Hret.
        unfold has_returned in Hret. by destruct (its_position co).
    + intros i co Hco.
      pose proof (forallb_true_lookup _ _ _ _ Hall Hco) as Hret.
      unfold has_returned in Hret. unfold returned_value.
      split_and!.
      * rewrite <- Hcalls. by apply calls_of_lookup.
      * by destruct (its_position co).
      * destruct (its_position co) as [| | | |r] eqn:Hpos; try done.
        symmetry. by eapply Hres.
Qed.

(** The three callers of the scenario: the lock was taken in the order 0, 2,
    1, and the store is the one of the serial run in that order. *)
Lemma lock_serializes_calls_witness :
  ∃ w, run_schedule scenario_schedule (starting scenario_store scenario_calls)
       = Some w
    ∧ all_returned w = true
    ∧ w_acquired w ≡ₚ seq 0 3
    ∧ w_tasks w = (serial scenario_calls scenario_store (w_acquired w)).1.
Proof.
  assert (∃ w, run_schedule scenario_schedule
                 (starting scenario_store scenario_calls) = Some w
               ∧ all_returned w = true) as (w & Hrun & Hall)
    by (eexists; split; vm_compute; reflexivity).
  exists w.
  destruct (lock_serializes_calls scenario_calls scenario_store
              scenario_schedule w Hrun) as (_ & _ & _ & Hserial).
  destruct (Hserial Hall) as (Hperm & Htasks & _).
  split_and!; [exact Hrun|exact Hall|exact Hperm|exact Htasks].
Defined.

(** * Further properties of the manager *)

(** ** Recording over a record *)

(** X1.  [update_task] replaces whatever was stored under the id of the task:
    a second recording under the same id makes the first one invisible, and
    the answer of a transition called next on that id is decided by the
    task just recorded alone, whatever the store held before, a finished
    record included. *)
Theorem update_task_replaces now now' n t t' (msg : string)
    (tasks : registry) :
  (task_id t = task_id t' →
     update_task now' t' (update_task now t tasks)
     = update_task now' t' tasks)
  ∧ (start_task n (task_id t) (update_task now t tasks)).1
    = bool_decide (status t = PENDING)
  ∧ (complete_task n (task_id t) (update_task now t tasks)).1
    = negb (TaskHooks.is_finished t)
  ∧ (fail_task n (task_id t) msg (update_task now t tasks)).1
    = negb (TaskHooks.is_finished t)
  ∧ (cancel_task n (task_id t) (update_task now t tasks)).1
    = negb (TaskHooks.is_finished t).
Proof.
  assert (update_task now t tasks !! task_id t = Some (set_updated_at now t))
    as Hl by apply lookup_insert_eq.
  split_and!.
  - intros Heq. unfold update_task, _update_task_no_lock. simpl.
    rewrite Heq. apply insert_insert_eq.
  - unfold start_task, _get_task. rewrite Hl. simpl.
    by destruct (bool_decide (status t = PENDING)).
  - unfold complete_task, _get_task. rewrite Hl.
    change (TaskHooks.is_finished (set_updated_at now t))
      with (TaskHooks.is_finished t).
    by destruct (TaskHooks.is_finished t).
  - unfold fail_task, _get_task. rewrite Hl.
    change (TaskHooks.is_finished (set_updated_at now t))
      with (TaskHooks.is_finished t).
    by destruct (TaskHooks.is_finished t).
  - unfold cancel_task, _get_task. rewrite Hl.
    change (TaskHooks.is_finished (set_updated_at now t))
      with (TaskHooks.is_finished t).
    by destruct (TaskHooks.is_finished t).
Qed.

(** T3 is COMPLETED in the scenario; recorded anew as PENDING it is lost as
    a finished task. *)
Lemma update_task_replaces_witness :
  update_task 8 (set_status PENDING T3) (update_task 7 T3 scenario_store)
  = update_task 8 (set_status PENDING T3) scenario_store.
Proof.
  apply (update_task_replaces 7 8 9 T3 (set_status PENDING T3) "boom"
           scenario_store).
  reflexivity.
Defined.

(** ** Calls that address different ids *)







(** ** Stores that the manager builds *)

(** X3.  In a store that the manager has built from [__init__] by any calls
    of its methods, a task found under an id carries that id: [_get_task]
    never hands out a task filed under a foreign id. *)
Theorem get_task_carries_id (tasks : registry) id t :
  reachable tasks → _get_task id tasks = Some t → task_id t = id.
Proof.
  intros Hr Hget. by apply (reachable_keyed tasks Hr).
Qed.

(** The store of the scenario is built by three recordings. *)
Lemma get_task_carries_id_witness :
  task_id (set_updated_at 2 T2) = "T2".
Proof.
  apply (get_task_carries_id scenario_store "T2" (set_updated_at 2 T2)).
  - apply (reachable_run (λ _, 3) (UpdateTask T3)).
    apply (reachable_run (λ _, 2) (UpdateTask T2)).
    apply (reachable_run (λ _, 1) (UpdateTask T1)).
    apply reachable_init.
  - reflexivity.
Defined.

(** ** The lifecycle over sequences of calls *)

Lemma guarded_write_at ok f id k t (tasks : registry) :
  (∀ t0, task_id (f t0) = task_id t0) →
  keyed_by_id tasks → tasks !! k = Some t →
  (guarded_write ok f id tasks).2 !! k = Some t
  ∨ (k = id ∧ ok t = true ∧ (guarded_write ok f id tasks).2 !! k = Some (f t)).
Proof.
  intros Hf Hk Ht. destruct (decide (k = id)) as [->|Hne].
  - destruct (ok t) eqn:Hok.
    + right. rewrite (guarded_write_accepted_keyed ok f Hf id tasks t) by done.
      simpl. by rewrite lookup_insert_eq.
    + left. by rewrite (guarded_write_refused ok f id tasks t).
  - left. by rewrite guarded_write_other.
Qed.

(** One transition call, seen from one stored task. *)
Lemma transition_record now c k t (tasks : registry) :
  keyed_by_id tasks → is_transition c = true → tasks !! k = Some t →
  ∃ t', (run now c tasks).2 !! k = Some t'
    ∧ task_id t' = task_id t
    ∧ conversation_id t' = conversation_id t
    ∧ (rank (status t) ≤ rank (status t'))%nat
    ∧ (TaskHooks.is_finished t = true → t' = t).
Proof.
  intros Hk Hc Ht. rewrite run_store.
  assert (∀ ok f id,
            (∀ t0, task_id (f t0) = task_id t0) →
            (ok t = true → conversation_id (f t) = conversation_id t
                           ∧ (rank (status t) ≤ rank (status (f t)))%nat
                           ∧ TaskHooks.is_finished t = false) →
            ∃ t', (guarded_write ok f id tasks).2 !! k = Some t'
              ∧ task_id t' = task_id t
              ∧ conversation_id t' = conversation_id t
              ∧ (rank (status t) ≤ rank (status t'))%nat
              ∧ (TaskHooks.is_finished t = true → t' = t)) as Hgw.
  { intros ok f id Hf Hok.
    destruct (guarded_write_at ok f id k t tasks Hf Hk Ht)
      as [Hl|(-> & Hokt & Hl)].
    - exists t. by split_and!.
    - exists (f t). destruct (Hok Hokt) as (? & ? & Hunf).
      split_and!; [done..|]. congruence. }
  destruct c as [t0|id|id|id msg|id|conv]; [done|..].
  - rewrite start_task_shape. apply Hgw; [done|].
    intros Hp%is_pending_true. split_and!; [done| |by apply pending_not_finished].
    rewrite Hp. simpl. lia.
  - rewrite complete_task_shape. apply Hgw; [done|].
    intros Hu%unfinished_true. split_and!; [done| |done].
    simpl. destruct (status t); simpl; lia.
  - rewrite fail_task_shape. apply Hgw; [done|].
    intros Hu%unfinished_true. split_and!; [done| |done].
    simpl. destruct (status t); simpl; lia.
  - rewrite cancel_task_shape. apply Hgw; [done|].
    intros Hu%unfinished_true. split_and!; [done| |done].
    simpl. destruct (status t); simpl; lia.
  - destruct (decide (conversation_id t = conv)) as [Hconv|Hconv];
      [destruct (TaskHooks.is_finished t) eqn:Hf|].
    + exists t. rewrite batch_kept; [by split_and!|done|].
      intros t1 Ht1 _. by simplify_eq.
    + destruct (batch_unfinished now conv tasks Hk k t Ht Hconv Hf)
        as (i & _ & Hl).
      exists (TaskHooks.cancel (now i) t). split_and!; [done..| |done].
      simpl. destruct (status t); simpl; lia.
    + exists t. rewrite batch_kept; [by split_and!|done|].
      intros t1 Ht1 Hc1. by simplify_eq.
Qed.

Lemma run_all_keyed calls (tasks : registry) :
  keyed_by_id tasks → keyed_by_id (run_all calls tasks).
Proof.
  revert tasks. induction calls as [|c calls IH]; intros tasks Hk; [done|].
  apply IH. by apply keyed_by_id_run.
Qed.

(** X4.  On a well-keyed store, whatever transition calls are made and in
    whatever order, a stored task stays stored under its id, keeps its
    [task_id] and its [conversation_id], never moves back in the lifecycle
    (PENDING, then RUNNING, then one of the finished statuses), and, once
    finished, is not changed at all. *)
Theorem lifecycle_moves_forward calls k t (tasks : registry) :
  keyed_by_id tasks →
  Forall (λ c : call * (nat → Z), is_transition c.1 = true) calls →
  tasks !! k = Some t →
  ∃ t', run_all calls tasks !! k = Some t'
    ∧ task_id t' = task_id t
    ∧ conversation_id t' = conversation_id t
    ∧ (rank (status t) ≤ rank (status t'))%nat
    ∧ (TaskHooks.is_finished t = true → t' = t).
Proof.
  revert tasks t. induction calls as [|[c now] calls IH];
    intros tasks t Hk Hall Ht.
  - exists t. by split_and!.
  - apply Forall_cons in Hall as [Hc Hall]. simpl in Hc.
    destruct (transition_record now c k t tasks Hk Hc Ht)
      as (t1 & Ht1 & Hid1 & Hconv1 & Hrank1 & Hfin1).
    destruct (IH (run now c tasks).2 t1) as (t' & Ht' & Hid & Hconv & Hrank & Hfin);
      [by apply keyed_by_id_run|done..|].
    exists t'. split_and!; [done|congruence|congruence|lia|].
    intros Hf. specialize (Hfin1 Hf). subst t1. by apply Hfin.
Qed.

(** T1 of the scenario is started, completed, and then asked to start and
    to be cancelled: it ends COMPLETED. *)
Lemma lifecycle_moves_forward_witness :
  ∃ t', run_all [(StartTask "T1", λ _, 5); (CompleteTask "T1", λ _, 6);
                 (StartTask "T1", λ _, 7);
                 (CancelConversationTasks "conv-1", λ _, 8)]
          scenario_store !! "T1" = Some t'
    ∧ task_id t' = "T1"
    ∧ conversation_id t' = "conv-1"
    ∧ (rank PENDING ≤ rank (status t'))%nat
    ∧ (TaskHooks.is_finished (set_updated_at 1 T1) = true
       → t' = set_updated_at 1 T1).
Proof.
  apply (lifecycle_moves_forward _ "T1" (set_updated_at 1 T1) scenario_store).
  - apply (bool_decide_unpack _). vm_compute. exact I.
  - repeat constructor.
  - reflexivity.
Defined.

(** ** After the batch cancellation *)

(** X5.  On a well-keyed store, once [cancel_conversation_tasks] has been
    called for a conversation, every transition on any task that the store
    then holds for that conversation is refused and leaves the store as it
    is, until a task of the conversation is recorded anew. *)
Theorem conversation_closed_after_batch nows conv now msg id t
    (tasks : registry) :
  keyed_by_id tasks →
  let after := (cancel_conversation_tasks nows conv tasks).2 in
  after !! id = Some t → conversation_id t = conv →
  start_task now id after = (false, after)
  ∧ complete_task now id after = (false, after)
  ∧ fail_task now id msg after = (false, after)
  ∧ cancel_task now id after = (false, after).
Proof.
  intros Hk after Ht Hconv.
  assert (TaskHooks.is_finished t = true) as Hf
    by by eapply batch_leaves_finished.
  split_and!.
  - apply (start_task_not_pending _ _ _ t);
      [done|by apply finished_not_pending].
  - by eapply complete_task_finished.
  - by eapply fail_task_finished.
  - by eapply cancel_task_finished.
Qed.

(** After "conv-2" is cancelled in the scenario, T2 can no longer be
    started or completed. *)
Lemma conversation_closed_after_batch_witness :
  let after := (cancel_conversation_tasks (λ _, 9) "conv-2" scenario_store).2 in
  start_task 10 "T2" after = (false, after)
  ∧ complete_task 10 "T2" after = (false, after)
  ∧ fail_task 10 "T2" "boom" after = (false, after)
  ∧ cancel_task 10 "T2" after = (false, after).
Proof.
  apply (conversation_closed_after_batch (λ _, 9) "conv-2" 10 "boom" "T2"
           (TaskHooks.cancel 9 (set_updated_at 2 T2)) scenario_store).
  - apply (bool_decide_unpack _). vm_compute. exact I.
  - vm_compute. reflexivity.
  - reflexivity.
Defined.

(** ** The batch cancellation against [cancel_task], task by task *)

Lemma untimed_cancel now t :
  untimed (TaskHooks.cancel now t) = untimed (set_status CANCELLED t).
Proof. reflexivity. Qed.

Lemma is_finished_untimed t t' :
  untimed t' = untimed t → TaskHooks.is_finished t' = TaskHooks.is_finished t.
Proof.
  intros H. unfold TaskHooks.is_finished.
  assert (status t' = status t) as ->; [|done].
  change (status (untimed t') = status (untimed t)). by rewrite H.
Qed.

Lemma conversation_id_untimed t t' :
  untimed t' = untimed t → conversation_id t' = conversation_id t.
Proof.
  intros H. change (conversation_id (untimed t') = conversation_id (untimed t)).
  by rewrite H.
Qed.

(** Cancelling an open task of the conversation leaves one open task less. *)
Lemma open_in_size_cancel conv id t t' (m : registry) :
  m !! id = Some t → open_in conv (id, t) → ¬ open_in conv (id, t') →
  (size (filter (open_in conv) (<[id := t']> m)) + 1
   = size (filter (open_in conv) m))%nat.
Proof.
  intros Hm Hopen Hclosed.
  rewrite map_filter_insert_False by done. rewrite map_filter_delete.
  assert (filter (open_in conv) m !! id = Some t) as Hf
    by by apply map_lookup_filter_Some.
  rewrite map_size_delete_Some by eauto.
  assert (size (filter (open_in conv) m) ≠ 0%nat) as Hne.
  { intros Hz. apply map_size_empty_iff in Hz. rewrite Hz in Hf.
    by rewrite lookup_empty in Hf. }
  lia.
Qed.

Lemma cancel_each_from_cons now n id ids (m : registry) :
  cancel_each_from now n (id :: ids) m
  = cancel_each_from now
      (if (cancel_task (now id) id m).1 then S n else n) ids
      (cancel_task (now id) id m).2.
Proof. reflexivity. Qed.

Lemma cancel_each_from_spec now conv ids n (m : registry) :
  keyed_by_id m →
  (∀ id t, id ∈ ids → m !! id = Some t → conversation_id t = conv) →
  (∀ k, k ∉ ids → (cancel_each_from now n ids m).2 !! k = m !! k)
  ∧ (∀ k t, k ∈ ids → m !! k = Some t →
       ∃ t', (cancel_each_from now n ids m).2 !! k = Some t'
         ∧ untimed t'
           = untimed (if TaskHooks.is_finished t then t
                      else set_status CANCELLED t))
  ∧ (∀ k, m !! k = None → (cancel_each_from now n ids m).2 !! k = None)
  ∧ ((cancel_each_from now n ids m).1
     + size (filter (open_in conv) (cancel_each_from now n ids m).2)
     = n + size (filter (open_in conv) m))%nat.
Proof.
  revert n m. induction ids as [|id ids IH]; intros n m Hk Hconv.
  { split_and!; try done. intros k t Hin. by apply elem_of_nil in Hin. }
  rewrite cancel_each_from_cons.
  assert (∀ id' t, id' ∈ ids → m !! id' = Some t → conversation_id t = conv)
    as Hconv' by (intros id' t Hin; apply Hconv; by right).
  destruct (m !! id) as [t|] eqn:Hid;
    [destruct (TaskHooks.is_finished t) eqn:Hfin|].
  - (* finished: the call is refused *)
    rewrite (cancel_task_finished (now id) id m t) by done. simpl.
    destruct (IH n m Hk Hconv') as (Hout & Hin & Hnone & Hcount).
    split_and!; [| |done..].
    + intros k Hk'. apply not_elem_of_cons in Hk' as [_ Hk']. by apply Hout.
    + intros k tk Hk' Htk. destruct (decide (k ∈ ids)) as [Hki|Hki].
      * by apply Hin.
      * apply elem_of_cons in Hk' as [->|?]; [|done].
        exists tk. rewrite Hout by done. split; [done|].
        simplify_eq. by rewrite Hfin.
  - (* open: the call is accepted *)
    assert (conversation_id t = conv) as Hc by (apply (Hconv id); [by left|done]).
    rewrite (cancel_task_unfinished (now id) id m t) by done. simpl.
    set (t1 := TaskHooks.cancel (now id) t).
    assert (keyed_by_id (<[id := t1]> m)) as Hk1.
    { apply map_Forall_insert_2; [|done]. unfold t1.
      rewrite task_id_cancel. by apply Hk. }
    destruct (IH (S n) (<[id := t1]> m) Hk1) as (Hout & Hin & Hnone & Hcount).
    { intros id' t' Hin. destruct (decide (id' = id)) as [->|Hne].
      - rewrite lookup_insert_eq. by intros [= <-].
      - rewrite lookup_insert_ne by done. by apply Hconv'. }
    split_and!.
    + intros k Hk'. apply not_elem_of_cons in Hk' as [Hne Hk'].
      rewrite Hout by done. by rewrite lookup_insert_ne.
    + intros k tk Hk' Htk. destruct (decide (k = id)) as [->|Hne].
      * simplify_eq. rewrite Hfin.
        destruct (decide (id ∈ ids)) as [Hi|Hi].
        -- destruct (Hin id t1 Hi) as (t' & Ht' & Hu);
             [apply lookup_insert_eq|].
           exists t'. split; [done|]. rewrite Hu. unfold t1.
           rewrite is_finished_cancel. apply untimed_cancel.
        -- exists t1. rewrite Hout by done. rewrite lookup_insert_eq.
           split; [done|]. apply untimed_cancel.
      * apply elem_of_cons in Hk' as [?|Hk']; [done|].
        apply Hin; [done|]. by rewrite lookup_insert_ne.
    + intros k Hk'. apply Hnone. rewrite lookup_insert_ne; [done|].
      intros <-. congruence.
    + rewrite Hcount.
      pose proof (open_in_size_cancel conv id t t1 m Hid) as Hsz.
      rewrite <- Hsz; [lia|by split|].
      intros [Hopen _]. simpl in Hopen. unfold t1 in Hopen.
      by rewrite is_finished_cancel in Hopen.
  - (* not stored: the call is refused *)
    rewrite (cancel_task_absent (now id) id m) by done. simpl.
    destruct (IH n m Hk Hconv') as (Hout & Hin & Hnone & Hcount).
    split_and!; [| |done..].
    + intros k Hk'. apply not_elem_of_cons in Hk' as [_ Hk']. by apply Hout.
    + intros k tk Hk' Htk. apply elem_of_cons in Hk' as [->|Hk'];
        [congruence|by apply Hin].
Qed.

(** X6.  On a well-keyed store, [cancel_conversation_tasks] does what
    [cancel_task] does when called for the tasks of the conversation one by
    one: for any list of ids that names only tasks of the conversation and
    names all its unfinished tasks, in any order and with repetitions, the
    number of calls that return [True] is the count that the batch returns,
    and the two stores agree on every record up to [updated_at]. *)
Theorem batch_is_cancel_each nows now conv ids (tasks : registry) :
  keyed_by_id tasks →
  (∀ id t, id ∈ ids → tasks !! id = Some t → conversation_id t = conv) →
  (∀ id t, tasks !! id = Some t → conversation_id t = conv →
     TaskHooks.is_finished t = false → id ∈ ids) →
  (cancel_conversation_tasks nows conv tasks).1 = (cancel_each now ids tasks).1
  ∧ untimed <$> (cancel_conversation_tasks nows conv tasks).2
    = untimed <$> (cancel_each now ids tasks).2.
Proof.
  intros Hk Honly Hall. unfold cancel_each.
  destruct (cancel_each_from_spec now conv ids 0 tasks Hk Honly)
    as (Hout & Hin & Hnone & Hcount).
  set (e := cancel_each_from now 0 ids tasks) in *.
  split.
  - assert (filter (open_in conv) e.2 = ∅) as Hempty.
    { apply map_empty_filter_2. intros k t' Ht' [Hopen Hc]. simpl in *.
      destruct (tasks !! k) as [t|] eqn:Ht;
        [|rewrite Hnone in Ht' by done; done].
      destruct (decide (k ∈ ids)) as [Hki|Hki].
      - destruct (Hin k t Hki Ht) as (t1 & Ht1 & Hu).
        rewrite Ht' in Ht1. injection Ht1 as <-.
        apply is_finished_untimed in Hu. rewrite Hopen in Hu.
        destruct (TaskHooks.is_finished t) eqn:Hf; [congruence|done].
      - rewrite Hout in Ht' by done. simplify_eq.
        by apply Hki, (Hall k t'). }
    rewrite Hempty, map_size_empty in Hcount.
    rewrite batch_count.
    change (size (filter (open_in conv) tasks) = e.1). lia.
  - apply map_eq. intros k. rewrite !lookup_fmap.
    destruct (tasks !! k) as [t|] eqn:Ht.
    + destruct (decide (conversation_id t = conv)) as [Hc|Hc];
        [destruct (TaskHooks.is_finished t) eqn:Hf|].
      * rewrite batch_kept; [|done|intros t0 Ht0 _; by simplify_eq].
        rewrite Ht. destruct (decide (k ∈ ids)) as [Hki|Hki].
        -- destruct (Hin k t Hki Ht) as (t1 & -> & Hu). simpl.
           rewrite Hf in Hu. by rewrite Hu.
        -- by rewrite Hout, Ht.
      * destruct (batch_unfinished nows conv tasks Hk k t Ht Hc Hf)
          as (i & _ & ->).
        destruct (Hin k t (Hall k t Ht Hc Hf) Ht) as (t1 & -> & Hu). simpl.
        rewrite Hf in Hu. by rewrite Hu, untimed_cancel.
      * rewrite batch_kept; [|done|intros t0 Ht0 Hc0; by simplify_eq].
        rewrite Hout, Ht; [done|]. intros Hki. apply Hc. by apply (Honly k).
    + rewrite batch_kept; [|done|intros t0 Ht0; by simplify_eq].
      by rewrite Ht, Hnone.
Qed.

(** "conv-2" of the scenario, against [cancel_task] for T3, T9 (unknown)
    and T2: one call returns [True]. *)
Lemma batch_is_cancel_each_witness :
  (cancel_conversation_tasks (λ _, 9) "conv-2" scenario_store).1
  = (cancel_each (λ _, 7) ["T3"; "T9"; "T2"] scenario_store).1
  ∧ untimed <$> (cancel_conversation_tasks (λ _, 9) "conv-2" scenario_store).2
    = untimed <$> (cancel_each (λ _, 7) ["T3"; "T9"; "T2"] scenario_store).2.
Proof.
  apply (batch_is_cancel_each (λ _, 9) (λ _, 7) "conv-2" ["T3"; "T9"; "T2"]
           scenario_store).
  - apply (bool_decide_unpack _). vm_compute. exact I.
  - intros id t Hin Hl.
    apply elem_of_cons in Hin as [->|Hin];
      [|apply elem_of_cons in Hin as [->|Hin];
        [|apply list_elem_of_singleton in Hin as ->]].
    + vm_compute in Hl. by simplify_eq.
    + vm_compute in Hl. discriminate.
    + vm_compute in Hl. by simplify_eq.
  - intros id t Hl Hc Hf.
    unfold scenario_store, update_task, _update_task_no_lock, init in Hl.
    simpl in Hl.
    apply lookup_insert_Some in Hl as [[<- <-]|[_ Hl]]; [discriminate|].
    apply lookup_insert_Some in Hl as [[<- <-]|[_ Hl]];
      [by right; right; left|].
    apply lookup_insert_Some in Hl as [[<- <-]|[_ Hl]]; [discriminate|].
    by rewrite lookup_empty in Hl.
Defined.

(** ** The lock and who holds it *)

(** X7.  In every world that concurrent calls can reach, the lock is taken
    exactly when some coroutine is inside the body of its method, at most
    one coroutine is inside, and once every call has returned the lock is
    free again: no path through a method keeps it. *)
Theorem lock_held_by_the_one_inside calls tasks0 schedule w :
  run_schedule schedule (starting tasks0 calls) = Some w →
  (w_locked w = true ↔ ∃ i co, w_pool w !! i = Some co ∧ inside co = true)
  ∧ (∀ i j ci cj, w_pool w !! i = Some ci → w_pool w !! j = Some cj →
       inside ci = true → inside cj = true → i = j)
  ∧ (all_returned w = true → w_locked w = false).
Proof.
  intros Hrun.
  assert (consistent calls tasks0 w) as Hcons
    by (eapply consistent_run_schedule; [apply consistent_starting|done]).
  assert (w_locked w = true
          → ∃ i co, w_pool w !! i = Some co ∧ inside co = true) as Hheld.
  { intros Hl. destruct (cons_locked _ _ _ Hcons Hl)
      as (prev & h & co & _ & Hco & _ & Htrack & _).
    exists h, co. split; [done|].
    unfold holder_on_track in Htrack. unfold inside.
    by destruct (its_position co). }
  split_and!.
  - split; [done|]. intros (i & co & Hco & Hin).
    by destruct (holder_inv _ _ _ _ _ Hcons Hco Hin) as (_ & Hl & _).
  - intros i j ci cj Hci Hcj Hini Hinj.
    destruct (holder_inv _ _ _ _ _ Hcons Hci Hini) as (_ & _ & _ & Hothers & _).
    destruct (decide (j = i)) as [->|Hne]; [done|].
    rewrite (Hothers j cj Hne Hcj) in Hinj. done.
  - intros Hall. destruct (w_locked w) eqn:Hl; [|done].
    destruct (Hheld eq_refl) as (i & co & Hco & Hin).
    pose proof (forallb_true_lookup _ _ _ _ Hall Hco) as Hret.
    unfold has_returned in Hret. unfold inside in Hin.
    by destruct (its_position co).
Qed.

(** In the scenario, after three moves the batch caller is in the middle of
    its scan and holds the lock. *)
Lemma lock_held_by_the_one_inside_witness :
  ∃ w, run_schedule [0; 0; 0]%nat (starting scenario_store scenario_calls)
       = Some w
    ∧ (w_locked w = true
       ↔ ∃ i co, w_pool w !! i = Some co ∧ inside co = true).
Proof.
  assert (∃ w, run_schedule [0; 0; 0]%nat
                 (starting scenario_store scenario_calls) = Some w)
    as (w & Hrun) by (eexists; vm_compute; reflexivity).
  exists w. split; [exact Hrun|].
  apply (lock_held_by_the_one_inside scenario_calls scenario_store
           [0; 0; 0]%nat w Hrun).
Defined.

(** ** Concurrent calls that address different tasks *)







(** ** Batch cancellations of several conversations *)

Lemma untimed_close conv t : untimed (close conv t) = close conv (untimed t).
Proof.
  unfold close, unfinished, TaskHooks.is_finished. simpl.
  by destruct (bool_decide (conversation_id t = conv)), (status t).
Qed.

Lemma close_close conv1 conv2 t :
  close conv1 (close conv2 t) = close conv2 (close conv1 t).
Proof.
  unfold close, unfinished, TaskHooks.is_finished.
  destruct (bool_decide (conversation_id t = conv1)) eqn:E1,
    (bool_decide (conversation_id t = conv2)) eqn:E2, (status t) eqn:Es;
    simpl; rewrite ?E1, ?E2, ?Es; simpl; rewrite ?E1, ?E2, ?Es; done.
Qed.

(** On a well-keyed store the batch cancellation acts on every record by
    itself, timestamps aside. *)
Lemma batch_untimed nows conv (tasks : registry) :
  keyed_by_id tasks →
  untimed <$> (cancel_conversation_tasks nows conv tasks).2
  = close conv <$> (untimed <$> tasks).
Proof.
  intros Hk. apply map_eq. intros k. rewrite !lookup_fmap.
  destruct (tasks !! k) as [t|] eqn:Ht.
  - change (untimed <$> (cancel_conversation_tasks nows conv tasks).2 !! k
            = Some (close conv (untimed t))).
    rewrite <- untimed_close. unfold close.
    destruct (decide (conversation_id t = conv)) as [Hc|Hc];
      [destruct (TaskHooks.is_finished t) eqn:Hf|].
    + rewrite batch_kept; [|done|intros t0 Ht0 _; by simplify_eq].
      rewrite Ht. unfold unfinished. rewrite Hf. simpl.
      by rewrite andb_false_r.
    + destruct (batch_unfinished nows conv tasks Hk k t Ht Hc Hf)
        as (i & _ & ->).
      unfold unfinished. rewrite Hf, bool_decide_eq_true_2 by done. done.
    + rewrite batch_kept; [|done|intros t0 Ht0 Hc0; by simplify_eq].
      rewrite Ht. by rewrite bool_decide_eq_false_2.
  - rewrite batch_kept; [|done|intros t0 Ht0; by simplify_eq].
    by rewrite Ht.
Qed.

(** A batch for one conversation leaves the open tasks of another as they
    are. *)
Lemma batch_keeps_open_elsewhere nows conv1 conv2 (tasks : registry) :
  keyed_by_id tasks → conv1 ≠ conv2 →
  filter (open_in conv2) (cancel_conversation_tasks nows conv1 tasks).2
  = filter (open_in conv2) tasks.
Proof.
  intros Hk Hne. apply map_filter_strong_ext. intros k x. split.
  - intros [[Hopen Hc] Hx]. simpl in Hopen, Hc. split; [done|].
    destruct (tasks !! k) as [t|] eqn:Ht.
    + destruct (decide (conversation_id t = conv1
                        ∧ TaskHooks.is_finished t = false)) as [[Hc1 Hf]|Hno].
      * destruct (batch_unfinished nows conv1 tasks Hk k t Ht Hc1 Hf)
          as (i & _ & Hl).
        rewrite Hl in Hx. injection Hx as <-. done.
      * rewrite batch_kept in Hx; [by rewrite <- Hx, Ht|done|].
        intros t0 Ht0 Hc0. rewrite Ht in Ht0. injection Ht0 as <-.
        destruct (TaskHooks.is_finished t) eqn:E; [done|].
        exfalso. by apply Hno.
    + rewrite batch_kept in Hx; [by rewrite Ht in Hx|done|].
      intros t0 Ht0. by simplify_eq.
  - intros [[Hopen Hc] Hx]. simpl in Hopen, Hc. split; [done|].
    rewrite batch_kept; [done..|].
    intros t0 Ht0 Hc0. simplify_eq.
Qed.

(** X9.  On a well-keyed store, batch cancellations for two conversations
    can be called in either order: the stores at the end agree on every
    record up to [updated_at], and when the conversations differ each
    call returns the count that it returns when called alone. *)
Theorem batches_commute nows1 nows2 conv1 conv2 (tasks : registry) :
  keyed_by_id tasks →
  let first1 := cancel_conversation_tasks nows1 conv1 tasks in
  let then2 := cancel_conversation_tasks nows2 conv2 first1.2 in
  let first2 := cancel_conversation_tasks nows2 conv2 tasks in
  let then1 := cancel_conversation_tasks nows1 conv1 first2.2 in
  untimed <$> then2.2 = untimed <$> then1.2
  ∧ (conv1 ≠ conv2 → then2.1 = first2.1 ∧ then1.1 = first1.1).
Proof.
  intros Hk first1 then2 first2 then1.
  assert (keyed_by_id first1.2) as Hk1
    by by apply keyed_by_id_cancel_conversation_tasks.
  assert (keyed_by_id first2.2) as Hk2
    by by apply keyed_by_id_cancel_conversation_tasks.
  split.
  - unfold then2, then1. rewrite !batch_untimed by done.
    unfold first1, first2. rewrite !batch_untimed by done.
    rewrite <- !map_fmap_compose. apply map_fmap_ext.
    intros k t _. simpl. apply close_close.
  - intros Hne. unfold then2, then1, first2, first1.
    rewrite !batch_count.
    change (size (filter (open_in conv2)
                    (cancel_conversation_tasks nows1 conv1 tasks).2)
            = size (filter (open_in conv2) tasks)
            ∧ size (filter (open_in conv1)
                      (cancel_conversation_tasks nows2 conv2 tasks).2)
              = size (filter (open_in conv1) tasks)).
    rewrite !batch_keeps_open_elsewhere by done. done.
Qed.

(** "conv-1" and "conv-2" of the scenario, cancelled in either order: each
    call returns 1. *)
Lemma batches_commute_witness :
  (cancel_conversation_tasks (λ _, 9) "conv-2"
     (cancel_conversation_tasks (λ _, 8) "conv-1" scenario_store).2).1
  = (cancel_conversation_tasks (λ _, 9) "conv-2" scenario_store).1
  ∧ (cancel_conversation_tasks (λ _, 8) "conv-1"
       (cancel_conversation_tasks (λ _, 9) "conv-2" scenario_store).2).1
    = (cancel_conversation_tasks (λ _, 8) "conv-1" scenario_store).1.
Proof.
  apply (batches_commute (λ _, 8) (λ _, 9) "conv-1" "conv-2" scenario_store).
  - apply (bool_decide_unpack _). vm_compute. exact I.
  - discriminate.
Defined.
